(** * QuickCrawl: the cache, the rate limiter, the workflow engine and the
  services built on them, embedded from the TypeScript sources.

  JavaScript numbers are modelled as [Z] (the code only handles integer
  millisecond counts, sizes and HTTP statuses), [Date.now()] is an explicit
  argument of every operation that reads the clock, [Map<string, _>] is a
  [gmap string _], and arrays are lists. *)

From Stdlib Require Import ZArith Lia.
From stdpp Require Import gmap strings list fin_maps pretty.

#[local] Open Scope Z_scope.

(** ** [src/lib/cache.ts]: [CacheService] *)

Module Cache.

Section cache.
Context {V : Type}.

(** [interface CacheEntry<T> { value: T; expiresAt: number }] *)
Record CacheEntry := mkEntry { value : V; expiresAt : Z }.

(** The object state: the two constructor parameters and the two private
    fields [cache] (a [Map]) and [order] (an array of keys). *)
Record CacheService := mkCache {
  ttlMs : Z;
  maxSize : Z;
  cache : gmap string CacheEntry;
  order : list string
}.

(** [new CacheService(ttlMs, maxSize)] *)
Definition new (ttl max : Z) : CacheService :=
  {| ttlMs := ttl; maxSize := max; cache := ∅; order := [] |}.

(** [const idx = order.indexOf(key); if (idx !== -1) order.splice(idx, 1)]:
    the first occurrence of [key] is removed; nothing happens when the key
    does not occur. *)
Fixpoint splice_first (key : string) (l : list string) : list string :=
  match l with
  | [] => []
  | x :: r => if decide (x = key) then r else x :: splice_first key r
  end.

(** [delete(key)]: [Map.delete] tells whether the key was there. *)
Definition delete (c : CacheService) (key : string) : bool * CacheService :=
  match cache c !! key with
  | Some _ =>
      (true, {| ttlMs := ttlMs c; maxSize := maxSize c;
                cache := base.delete key (cache c);
                order := splice_first key (order c) |})
  | None => (false, c)
  end.

(** [get(key)], with [now] the value of [Date.now()]. *)
Definition get (c : CacheService) (now : Z) (key : string)
  : option V * CacheService :=
  match cache c !! key with
  | None => (None, c)
  | Some entry =>
      if now >? expiresAt entry then (None, snd (delete c key))
      else (Some (value entry), c)
  end.

(** The eviction step of [set]: [order.shift()] and the deletion of the
    shifted key; [shift] on an empty array yields [undefined] and then
    nothing is deleted. *)
Definition evict_oldest (c : CacheService) : CacheService :=
  match order c with
  | [] => c
  | oldest :: rest =>
      {| ttlMs := ttlMs c; maxSize := maxSize c;
         cache := base.delete oldest (cache c);
         order := rest |}
  end.

(** [set(key, value)], with [now] the value of [Date.now()]. *)
Definition set (c : CacheService) (now : Z) (key : string) (v : V)
  : CacheService :=
  let c1 :=
    if negb (bool_decide (is_Some (cache c !! key)))
       && (Z.of_nat (length (order c)) >=? maxSize c)
    then evict_oldest c else c in
  let expires := now + ttlMs c in
  {| ttlMs := ttlMs c1; maxSize := maxSize c1;
     cache := <[key := {| value := v; expiresAt := expires |}]> (cache c1);
     order := splice_first key (order c1) ++ [key] |}.

(** A call of one of the three public methods, with the clock value the
    call reads. *)
Inductive op :=
| OpGet (now : Z) (key : string)
| OpSet (now : Z) (key : string) (v : V)
| OpDelete (key : string).

Definition step (c : CacheService) (o : op) : CacheService :=
  match o with
  | OpGet now key => snd (get c now key)
  | OpSet now key v => set c now key v
  | OpDelete key => snd (delete c key)
  end.

Definition run (c : CacheService) (ops : list op) : CacheService :=
  fold_left step ops c.

(** [Map.size] *)
Definition entries (c : CacheService) : nat := size (cache c).

(** Insertion of a list of (clock, key, value) triples, in order. *)
Definition set_all (c : CacheService) (l : list (Z * string * V))
  : CacheService :=
  fold_left (fun c '(now, k, v) => set c now k v) l c.

(** The keys of a list of insertions. *)
Definition keys (l : list (Z * string * V)) : list string :=
  map (fun x => snd (fst x)) l.

(** *** The representation invariant: [order] lists the keys of [cache]
    once each. *)
Definition wf (c : CacheService) : Prop :=
  NoDup (order c) ∧ ∀ k, k ∈ order c ↔ is_Some (cache c !! k).

End cache.

Arguments CacheEntry : clear implicits.
Arguments CacheService : clear implicits.
Arguments op : clear implicits.

End Cache.

(** ** [src/lib/rateLimiter.ts]: [RateLimiter] *)

Module RateLimiter.

(** [checkLimit(identifier, maxRequests, windowMs)] on the private map
    [requests], with [now] the value of [Date.now()].  [filter] builds a new
    array, so the [push] does not touch the stored one. *)
Definition checkLimit (requests : gmap string (list Z)) (now : Z)
    (identifier : string) (maxRequests windowMs : Z)
  : bool * gmap string (list Z) :=
  let timestamps := default [] (requests !! identifier) in
  let recent := filter (fun t => now - t < windowMs) timestamps in
  if Z.of_nat (length recent) >=? maxRequests then (false, requests)
  else (true, <[identifier := recent ++ [now]]> requests).

(** The timestamps recorded for an identifier ([[]] when it has none). *)
Definition history (requests : gmap string (list Z)) (identifier : string)
  : list Z :=
  default [] (requests !! identifier).

(** A sequence of checks [(now, identifier)] under one configuration, as
    the middleware issues them; the answers are dropped. *)
Definition run_checks (maxRequests windowMs : Z)
    (requests : gmap string (list Z)) (calls : list (Z * string))
  : gmap string (list Z) :=
  fold_left
    (fun st '(now, identifier) =>
       snd (checkLimit st now identifier maxRequests windowMs))
    calls requests.

(** The answers of successive checks of one identifier at the given clock
    values. *)
Fixpoint answers (maxRequests windowMs : Z) (requests : gmap string (list Z))
    (identifier : string) (times : list Z) : list bool :=
  match times with
  | [] => []
  | now :: rest =>
      let '(allowed, st) :=
        checkLimit requests now identifier maxRequests windowMs in
      allowed :: answers maxRequests windowMs st identifier rest
  end.

(** No history is longer than the limit: what holds of the map when every
    check used the limit [N]. *)
Definition bounded (N : Z) (requests : gmap string (list Z)) : Prop :=
  ∀ id h, requests !! id = Some h → Z.of_nat (length h) ≤ N.

End RateLimiter.

(** ** [src/workflows/crawl/types.ts] *)

Module Types.

(** [type Metadata = KnownMetadata & Record<string, string | undefined>] *)
Abbreviation Metadata := (gmap string (option string)).

(** [CrawlError], and the values a JavaScript [throw] can carry in this
    program: [Error] objects (with their [name] and [message]), [ApiError]
    and [ZodError] objects, plain objects of one of the six [CrawlError]
    shapes with the keys that shape declares and no other, and values of
    another kind that have not both a [type] and a [message] key (a string,
    a number, [null], ...).  An object that has the two keys without being
    of one of the six shapes is not among them.  The [cause] of [unknown]
    is the caught value itself. *)
Inductive CrawlError :=
| fetch_failed (status : Z) (statusText url : string)
| timeout (timeoutMs : Z) (stage : string)
| parse_failed (message stage : string)
| network_error (message : string) (cause : option string)
| invalid_html (message : string)
| unknown (message : string) (cause : option JsThrown)
with JsThrown :=
| ErrorObj (name message : string)
| ApiErrorObj (statusCode : Z) (message : string)
| ZodErrorObj (message : string)
| CrawlErrorObj (e : CrawlError)
| OtherThrown (repr : string).

(** [CrawlResultData] *)
Record CrawlResultData := mkData {
  markdown : string;
  title : option string;
  metadata : option Metadata
}.

(** [Result<T, E> = Success<T> | Failure<E>] *)
Inductive Result (T E : Type) :=
| Success (data : T)
| Failure (error : E).
Arguments Success {T E} data.
Arguments Failure {T E} error.

Abbreviation CrawlResult := (Result CrawlResultData CrawlError).

Definition success {T E} (r : Result T E) : bool :=
  match r with Success _ => true | Failure _ => false end.

(** The context variants.  [Omit<Prev, 'stage'> & { stage; added }] is
    written out: every record lists the fields of the previous one and the
    one it adds. *)
Record InitialContext := mkInitial { i_url : string }.

Record FetchedContext := mkFetched {
  f_url : string; f_html : string; f_title : option string }.

Record MetadataExtractedContext := mkMetadataExtracted {
  m_url : string; m_html : string; m_title : option string;
  m_metadata : Metadata }.

Record ParsedContext := mkParsed {
  p_url : string; p_html : string; p_title : option string;
  p_metadata : Metadata; p_document : string }.

Record CleanedContext := mkCleaned {
  c_url : string; c_html : string; c_title : option string;
  c_metadata : Metadata; c_document : string; c_cleanedDocument : string }.

Record CompletedContext := mkCompleted {
  d_url : string; d_html : string; d_title : option string;
  d_metadata : Metadata; d_document : string; d_cleanedDocument : string;
  d_markdown : string }.

(** A field value: every field of a context is a string, except
    [metadata]. *)
Inductive FieldVal :=
| FStr (s : string)
| FMeta (m : Metadata).

Record ErrorContext := mkErrorContext {
  e_url : string; e_error : CrawlError;
  e_partialData : option (gmap string FieldVal) }.

Inductive CrawlContext :=
| Initial (c : InitialContext)
| Fetched (c : FetchedContext)
| MetadataExtracted (c : MetadataExtractedContext)
| Parsed (c : ParsedContext)
| Cleaned (c : CleanedContext)
| Completed (c : CompletedContext)
| Error (c : ErrorContext).

(** The discriminant [ctx.stage]. *)
Definition stage (ctx : CrawlContext) : string :=
  match ctx with
  | Initial _ => "initial"
  | Fetched _ => "fetched"
  | MetadataExtracted _ => "metadata_extracted"
  | Parsed _ => "parsed"
  | Cleaned _ => "cleaned"
  | Completed _ => "completed"
  | Error _ => "error"
  end.

(** [ctx.url], a field of every variant. *)
Definition url (ctx : CrawlContext) : string :=
  match ctx with
  | Initial c => i_url c
  | Fetched c => f_url c
  | MetadataExtracted c => m_url c
  | Parsed c => p_url c
  | Cleaned c => c_url c
  | Completed c => d_url c
  | Error c => e_url c
  end.

(** The fields a context object carries besides the discriminant, by name;
    an optional [title] that is [undefined] is left out. *)
Definition with_title (t : option string) (m : gmap string FieldVal)
  : gmap string FieldVal :=
  match t with
  | Some s => <["title" := FStr s]> m
  | None => m
  end.

Definition fields (ctx : CrawlContext) : gmap string FieldVal :=
  match ctx with
  | Initial c => {["url" := FStr (i_url c)]}
  | Fetched c =>
      <["html" := FStr (f_html c)]>
        (with_title (f_title c) {["url" := FStr (f_url c)]})
  | MetadataExtracted c =>
      <["metadata" := FMeta (m_metadata c)]>
        (<["html" := FStr (m_html c)]>
           (with_title (m_title c) {["url" := FStr (m_url c)]}))
  | Parsed c =>
      <["document" := FStr (p_document c)]>
        (<["metadata" := FMeta (p_metadata c)]>
           (<["html" := FStr (p_html c)]>
              (with_title (p_title c) {["url" := FStr (p_url c)]})))
  | Cleaned c =>
      <["cleanedDocument" := FStr (c_cleanedDocument c)]>
        (<["document" := FStr (c_document c)]>
           (<["metadata" := FMeta (c_metadata c)]>
              (<["html" := FStr (c_html c)]>
                 (with_title (c_title c) {["url" := FStr (c_url c)]}))))
  | Completed c =>
      <["markdown" := FStr (d_markdown c)]>
        (<["cleanedDocument" := FStr (d_cleanedDocument c)]>
           (<["document" := FStr (d_document c)]>
              (<["metadata" := FMeta (d_metadata c)]>
                 (<["html" := FStr (d_html c)]>
                    (with_title (d_title c) {["url" := FStr (d_url c)]})))))
  | Error c => {["url" := FStr (e_url c)]}
  end.

End Types.

(** ** [src/workflows/crawl/guards.ts] *)

Module Guards.
Import Types.

Definition isInitial (ctx : CrawlContext) : bool :=
  bool_decide (stage ctx = "initial").
Definition isFetched (ctx : CrawlContext) : bool :=
  bool_decide (stage ctx = "fetched").
Definition hasMetadata (ctx : CrawlContext) : bool :=
  bool_decide (stage ctx = "metadata_extracted").
Definition isParsed (ctx : CrawlContext) : bool :=
  bool_decide (stage ctx = "parsed").
Definition isCleaned (ctx : CrawlContext) : bool :=
  bool_decide (stage ctx = "cleaned").
Definition isCompleted (ctx : CrawlContext) : bool :=
  bool_decide (stage ctx = "completed").
Definition isError (ctx : CrawlContext) : bool :=
  bool_decide (stage ctx = "error").

End Guards.

(** ** Promises on a simulated clock, and the three promise utilities the
    sources import ([p-pipe], [p-timeout], [p-retry]).

    A promise is described by what it settles with and how many
    milliseconds after its creation it does so; [Pending] is a promise that
    never settles. *)

Module Async.
Import Types.

Inductive Settled (A : Type) :=
| Fulfilled (a : A)
| Rejected (e : JsThrown).
Arguments Fulfilled {A} a.
Arguments Rejected {A} e.

Inductive Promise (A : Type) :=
| Settles (elapsed : Z) (s : Settled A)
| Pending.
Arguments Settles {A} elapsed s.
Arguments Pending {A}.

Definition resolve {A} (a : A) : Promise A := Settles 0 (Fulfilled a).
Definition reject {A} (e : JsThrown) : Promise A := Settles 0 (Rejected e).

(** A promise created [d] milliseconds later. *)
Definition delay {A} (d : Z) (p : Promise A) : Promise A :=
  match p with
  | Settles t s => Settles (d + t) s
  | Pending => Pending
  end.

(** [const a = await p; return f(a)] inside an [async] function: a rejection
    of [p] is the rejection of the whole. *)
Definition bind {A B} (p : Promise A) (f : A -> Promise B) : Promise B :=
  match p with
  | Settles t (Fulfilled a) => delay t (f a)
  | Settles t (Rejected e) => Settles t (Rejected e)
  | Pending => Pending
  end.

(** [pPipe(...functions)(input)]: the functions are awaited one after the
    other, each on the value of the previous one; with no function at all
    [pPipe] throws. *)
Definition pPipe {A} (functions : list (A -> Promise A)) (input : A)
  : Promise A :=
  match functions with
  | [] => reject (ErrorObj "Error" "Expected at least one argument")
  | _ => fold_left bind functions (resolve input)
  end.

(** The [TimeoutError] of [p-timeout], an [Error] subclass, with its default
    message. *)
Definition TimeoutError (milliseconds : Z) : JsThrown :=
  ErrorObj "TimeoutError"
    ("Promise timed out after " +:+ pretty milliseconds +:+ " milliseconds").

(** [pTimeout(promise, {milliseconds})]: the promise's own settlement when it
    comes before the timer fires, the [TimeoutError] otherwise; a duration
    that is not positive is refused with a [TypeError].  The durations
    meant are those [setTimeout] takes as they are, up to [2^31 - 1].  When
    the settlement and the timer fall on the same millisecond, the order in
    which the timers were armed decides in the program; here the timer
    fires first, and no statement below is about that case. *)
Definition pTimeout {A} (promise : Promise A) (milliseconds : Z)
  : Promise A :=
  if milliseconds <=? 0 then
    reject (ErrorObj "TypeError"
              ("Expected `milliseconds` to be a positive number, got `"
               +:+ pretty milliseconds +:+ "`"))
  else
    match promise with
    | Settles t s =>
        if t <? milliseconds then Settles t s
        else Settles milliseconds (Rejected (TimeoutError milliseconds))
    | Pending => Settles milliseconds (Rejected (TimeoutError milliseconds))
    end.

(** The promise is still unsettled when [ms] milliseconds have passed: it
    settles later than that, or never. *)
Definition unsettled_at {A} (ms : Z) (p : Promise A) : Prop :=
  match p with
  | Settles t _ => ms < t
  | Pending => True
  end.

(** [pRetry(input, {retries})]: [input] is called again after a rejection
    that [p-retry] takes for transient, after the back-off delay, as long as
    retries are left; a fulfilled call ends the loop.  The second component
    counts the calls of [input] that were made. *)
Fixpoint pRetry {A} (retryable : JsThrown -> bool) (backoff : nat -> Z)
    (input : nat -> Promise A) (attempt retries : nat) : Promise A * nat :=
  match input attempt with
  | Settles t (Fulfilled a) => (Settles t (Fulfilled a), S attempt)
  | Settles t (Rejected e) =>
      if retryable e then
        match retries with
        | O => (Settles t (Rejected e), S attempt)
        | S r =>
            let '(p, n) := pRetry retryable backoff input (S attempt) r in
            (delay (t + backoff attempt) p, n)
        end
      else (Settles t (Rejected e), S attempt)
  | Pending => (Pending, S attempt)
  end.

End Async.

(** ** [src/workflow/types.ts] *)

Module WorkflowTypes.
Import Types Async.

(** [interface Task<TInput, TOutput>]; the engine stores [Task<any, any>],
    here tasks over the whole [CrawlContext] union. *)
Record Task := mkTask {
  name : string;
  run : CrawlContext -> Promise CrawlContext
}.

(** [interface RunOptions]; [onProgress] is never read by the engine. *)
Record RunOptions := mkRunOptions { timeoutMs : option Z }.

End WorkflowTypes.

(** ** [src/workflow/index.ts]: the engine *)

Module Workflow.
Import Types Async.

(** The class, with its private field [tasks]. *)
Record Workflow := mkWorkflow { tasks : list WorkflowTypes.Task }.

(** [run(initial, options)].  Without tasks [pPipe(...runners)] throws
    before the options are looked at. *)
Definition run (w : Workflow) (initial : CrawlContext)
    (options : option WorkflowTypes.RunOptions) : Promise CrawlContext :=
  let runners := map WorkflowTypes.run (tasks w) in
  match runners with
  | [] => pPipe runners initial
  | _ :: _ =>
      let promise := pPipe runners initial in
      match options with
      | Some {| WorkflowTypes.timeoutMs := Some ms |} => pTimeout promise ms
      | _ => promise
      end
  end.

End Workflow.

(** ** [src/workflows/crawl/constants.ts] and [src/workflows/crawl/tasks/] *)

Module Tasks.
Import Types Async WorkflowTypes.

(** [TASK_NAMES] *)
Definition FETCH_HTML : string := "fetch_html".
Definition EXTRACT_METADATA : string := "extract_metadata".
Definition PARSE_DOCUMENT : string := "parse_document".
Definition CLEAN_DOCUMENT : string := "clean_document".
Definition CONVERT_TO_MARKDOWN : string := "convert_to_markdown".

(** What [fetch] resolves with, once the status line and the headers have
    arrived; [text] is the promise of [response.text()], which reads the
    body. *)
Record Response := mkResponse {
  status : Z;
  statusText : string;
  text : Promise string
}.

(** [response.ok]: the status is in the range 200-299. *)
Definition ok (r : Response) : bool :=
  (200 <=? status r) && (status r <=? 299).

(** A [<meta>] element of the head: its [name], [property] and [content]
    attributes. *)
Record MetaTag := mkMeta {
  meta_name : option string;
  meta_property : option string;
  meta_content : option string
}.

(** Everything the tasks obtain from outside the repository: the network
    and the libraries [p-retry], [cheerio] and [turndown].

    [net url i] is what the [i]-th call [fetch(url, {signal, headers})]
    of a task run settles with; a call that the abort signal of the
    [FETCH_TIMEOUT_MS] timer cuts short is one that is rejected. *)
Record World := mkWorld {
  net : string -> nat -> Promise Response;
  retryable : JsThrown -> bool;
  backoff : nat -> Z;
  (** capture group 1 of [/<title[^>]*>([^<]+)<\/title>/i], when it
      matches *)
  title_capture : string -> option string;
  trim : string -> string;
  (** [$('head title').first().text()], when there is such an element *)
  head_title : string -> option string;
  (** the elements of [$('head meta')], in document order *)
  head_metas : string -> list MetaTag;
  (** [$('head link[rel="..."]').attr('href')] *)
  link_href : string -> string -> option string;
  (** [$(selector)] on the loaded document: [None] when nothing matches,
      otherwise the [.html()] of the first match, which may be [null] *)
  select_html : string -> string -> option (option string);
  (** [$.html()] of the loaded document *)
  serialize : string -> string;
  (** the document after the removals of [cleanDocumentTask], serialized *)
  strip_presentation : string -> string;
  (** [turndown.turndown] *)
  turndown : string -> string
}.

Definition FETCH_TIMEOUT_MS : Z := 15000.
Definition RETRIES : nat := 2.

(** JavaScript truthiness of a string. *)
Definition truthy (s : string) : bool := negb (String.eqb s EmptyString).

(** [fetchHtmlTask]; the second component is the number of [fetch] calls
    the run made. *)
Definition fetchHtmlTask (w : World) (ctx : InitialContext)
  : Promise FetchedContext * nat :=
  let '(response, calls) :=
    pRetry (retryable w) (backoff w) (net w (i_url ctx)) 0 RETRIES in
  (bind response (fun response =>
     if negb (ok response) then
       reject (ErrorObj "Error"
                 ("Fetch failed: " +:+ pretty (status response) +:+ " "
                  +:+ statusText response))
     else
       bind (text response) (fun html =>
         let title :=
           match title_capture w html with
           | Some g => Some (trim w g)
           | None => None
           end in
         resolve {| f_url := i_url ctx; f_html := html; f_title := title |})),
   calls).

(** The [title] part of [extractMetadataTask]. *)
Definition metadata_title (w : World) (ctx : FetchedContext) : Metadata :=
  match head_title w (f_html ctx) with
  | Some text =>
      let t := trim w text in
      <["title" := if truthy t then Some t else f_title ctx]> ∅
  | None =>
      match f_title ctx with
      | Some t => if truthy t then <["title" := Some t]> ∅ else ∅
      | None => ∅
      end
  end.

(** One step of the [$('head meta').each] loop. *)
Definition metadata_meta (metadata : Metadata) (el : MetaTag) : Metadata :=
  match meta_content el with
  | None => metadata
  | Some content =>
      let m1 :=
        match meta_name el with
        | Some n => if truthy n then <[n := Some content]> metadata
                    else metadata
        | None => metadata
        end in
      match meta_property el with
      | Some p => if truthy p then <[p := Some content]> m1 else m1
      | None => m1
      end
  end.

(** [if (metadata[from]) metadata[to] = metadata[from]] *)
Definition metadata_alias (from to : string) (metadata : Metadata)
  : Metadata :=
  match metadata !! from with
  | Some (Some v) => if truthy v then <[to := Some v]> metadata else metadata
  | _ => metadata
  end.

Definition metadata_favicon (w : World) (html : string) (metadata : Metadata)
  : Metadata :=
  let favicon :=
    match link_href w "icon" html with
    | Some h => Some h
    | None => link_href w "shortcut icon" html
    end in
  match favicon with
  | Some h => if truthy h then <["favicon" := Some h]> metadata else metadata
  | None => metadata
  end.

(** [extractMetadataTask] *)
Definition extractMetadataTask (w : World) (ctx : FetchedContext)
  : Promise MetadataExtractedContext :=
  let m0 := metadata_title w ctx in
  let m1 := fold_left metadata_meta (head_metas w (f_html ctx)) m0 in
  let m2 := metadata_alias "og:title" "ogTitle" m1 in
  let m3 := metadata_alias "og:description" "ogDescription" m2 in
  let m4 := metadata_alias "og:image" "ogImage" m3 in
  let m5 := metadata_alias "og:url" "ogUrl" m4 in
  let metadata := metadata_favicon w (f_html ctx) m5 in
  resolve {| m_url := f_url ctx; m_html := f_html ctx;
             m_title := f_title ctx; m_metadata := metadata |}.

(** [x ?? $.html()] *)
Definition or_whole (w : World) (html : string) (x : option string)
  : string :=
  match x with
  | Some s => s
  | None => serialize w html
  end.

(** [parseDocumentTask] *)
Definition parseDocumentTask (w : World) (ctx : MetadataExtractedContext)
  : Promise ParsedContext :=
  let html := m_html ctx in
  let document :=
    match select_html w "article" html with
    | Some x => or_whole w html x
    | None =>
        match select_html w "main" html with
        | Some x => or_whole w html x
        | None =>
            match select_html w "body" html with
            | Some x => or_whole w html x
            | None => serialize w html
            end
        end
    end in
  resolve {| p_url := m_url ctx; p_html := m_html ctx;
             p_title := m_title ctx; p_metadata := m_metadata ctx;
             p_document := document |}.

(** [cleanDocumentTask] *)
Definition cleanDocumentTask (w : World) (ctx : ParsedContext)
  : Promise CleanedContext :=
  let raw := p_document ctx in
  let cleanedDocument := strip_presentation w raw in
  resolve {| c_url := p_url ctx; c_html := p_html ctx;
             c_title := p_title ctx; c_metadata := p_metadata ctx;
             c_document := p_document ctx;
             c_cleanedDocument := cleanedDocument |}.

(** [convertToMarkdownTask] *)
Definition convertToMarkdownTask (w : World) (ctx : CleanedContext)
  : Promise CompletedContext :=
  let markdown := turndown w (c_cleanedDocument ctx) in
  resolve {| d_url := c_url ctx; d_html := c_html ctx;
             d_title := c_title ctx; d_metadata := c_metadata ctx;
             d_document := c_document ctx;
             d_cleanedDocument := c_cleanedDocument ctx;
             d_markdown := markdown |}.

(** A task handed a context of another variant than its [Input] type: the
    TypeScript types of the task list exclude it; the model rejects. *)
Definition wrong_variant (task : string) (ctx : CrawlContext)
  : Promise CrawlContext :=
  reject (ErrorObj "TypeError"
            (task +:+ ": unexpected stage " +:+ stage ctx)).

(** The exported [Task] objects. *)
Definition fetchHtml (w : World) : Task :=
  {| name := FETCH_HTML;
     run := fun ctx =>
       match ctx with
       | Initial c =>
           bind (fst (fetchHtmlTask w c)) (fun o => resolve (Fetched o))
       | _ => wrong_variant FETCH_HTML ctx
       end |}.

Definition extractMetadata (w : World) : Task :=
  {| name := EXTRACT_METADATA;
     run := fun ctx =>
       match ctx with
       | Fetched c =>
           bind (extractMetadataTask w c)
                (fun o => resolve (MetadataExtracted o))
       | _ => wrong_variant EXTRACT_METADATA ctx
       end |}.

Definition parseDocument (w : World) : Task :=
  {| name := PARSE_DOCUMENT;
     run := fun ctx =>
       match ctx with
       | MetadataExtracted c =>
           bind (parseDocumentTask w c) (fun o => resolve (Parsed o))
       | _ => wrong_variant PARSE_DOCUMENT ctx
       end |}.

Definition cleanDocument (w : World) : Task :=
  {| name := CLEAN_DOCUMENT;
     run := fun ctx =>
       match ctx with
       | Parsed c =>
           bind (cleanDocumentTask w c) (fun o => resolve (Cleaned o))
       | _ => wrong_variant CLEAN_DOCUMENT ctx
       end |}.

Definition convertToMarkdown (w : World) : Task :=
  {| name := CONVERT_TO_MARKDOWN;
     run := fun ctx =>
       match ctx with
       | Cleaned c =>
           bind (convertToMarkdownTask w c) (fun o => resolve (Completed o))
       | _ => wrong_variant CONVERT_TO_MARKDOWN ctx
       end |}.

(** The stage a task expects its input to be at ([Input] in each task
    file). *)
Definition input_stage (task : string) : string :=
  if decide (task = FETCH_HTML) then "initial"
  else if decide (task = EXTRACT_METADATA) then "fetched"
  else if decide (task = PARSE_DOCUMENT) then "metadata_extracted"
  else if decide (task = CLEAN_DOCUMENT) then "parsed"
  else if decide (task = CONVERT_TO_MARKDOWN) then "cleaned"
  else EmptyString.

(** [createCrawlWorkflow()] *)
Definition createCrawlWorkflow (w : World) : Workflow.Workflow :=
  {| Workflow.tasks := [fetchHtml w; extractMetadata w; parseDocument w;
                        cleanDocument w; convertToMarkdown w] |}.

End Tasks.

(** ** [src/workflows/crawl/guards.ts]: the assertions *)

Module Asserts.
Import Types.

(** [ctx.html], for the variants that have the key. *)
Definition html_of (ctx : CrawlContext) : option string :=
  match ctx with
  | Fetched c => Some (f_html c)
  | MetadataExtracted c => Some (m_html c)
  | Parsed c => Some (p_html c)
  | Cleaned c => Some (c_html c)
  | Completed c => Some (d_html c)
  | Initial _ => None
  | Error _ => None
  end.

(** [ctx.document], for the variants that have the key. *)
Definition document_of (ctx : CrawlContext) : option string :=
  match ctx with
  | Parsed c => Some (p_document c)
  | Cleaned c => Some (c_document c)
  | Completed c => Some (d_document c)
  | _ => None
  end.

(** [if (!(key in ctx) || !ctx[key]) throw new Error(...)]: [None] when
    the assertion passes, the thrown [Error] otherwise. *)
Definition assert_key (what : string) (value : option string)
    (ctx : CrawlContext) : option JsThrown :=
  match value with
  | Some v =>
      if Tasks.truthy v then None
      else Some (ErrorObj "Error"
                   ("Expected " +:+ what +:+ " in context at stage "
                    +:+ stage ctx))
  | None =>
      Some (ErrorObj "Error"
              ("Expected " +:+ what +:+ " in context at stage "
               +:+ stage ctx))
  end.

Definition assertHasHtml (ctx : CrawlContext) : option JsThrown :=
  assert_key "html" (html_of ctx) ctx.

Definition assertHasDocument (ctx : CrawlContext) : option JsThrown :=
  assert_key "document" (document_of ctx) ctx.

End Asserts.

(** ** [src/workflows/crawl/utils/runtime.ts] *)

Module Runtime.
Import Types.

(** [removeUndefined]: the entries whose value is [undefined] (or [null])
    are dropped. *)
Definition removeUndefined (obj : Metadata) : Metadata :=
  filter (fun entry => is_Some (snd entry)) obj.

(** [s.includes(sub)] *)
Fixpoint includes (s sub : string) : bool :=
  String.prefix sub s
  || match s with
     | EmptyString => false
     | String _ rest => includes rest sub
     end.

(** [toCrawlError(error, stage)].  [cause] stands for
    [error.cause?.toString()], which the thrown values here do not record,
    and the [repr] of a value that is no [Error] for [String(error)]. *)
Definition toCrawlError (error : JsThrown) (cause : option string)
    (stage : string) : CrawlError :=
  let of_message (message : string) :=
    if includes message "fetch" then network_error message cause
    else unknown message (Some error) in
  match error with
  | ErrorObj _ m => of_message m
  | ApiErrorObj _ m => of_message m
  | ZodErrorObj m => of_message m
  | CrawlErrorObj _ => unknown "[object Object]" (Some error)
  | OtherThrown repr => unknown repr (Some error)
  end.

(** [createErrorContext(url, error, stage, partialData)] *)
Definition createErrorContext (url : string) (error : JsThrown)
    (cause : option string) (stage : string)
    (partialData : option (gmap string FieldVal)) : CrawlContext :=
  let crawlError := toCrawlError error cause stage in
  Error {| e_url := url; e_error := crawlError;
           e_partialData := partialData |}.

End Runtime.

(** ** [src/services/CrawlService.ts] *)

Module CrawlService.
Import Types Async.

Definition DEFAULT_TIMEOUT_MS : Z := 30000.

(** The class, with its two constructor parameters. *)
Record CrawlService := mkCrawlService {
  workflow : Workflow.Workflow;
  timeoutMs : Z
}.

(** [err instanceof Error ? err.message : 'Unknown error'] *)
Definition caught_message (err : JsThrown) : string :=
  match err with
  | ErrorObj _ m => m
  | ApiErrorObj _ m => m
  | ZodErrorObj m => m
  | CrawlErrorObj _ => "Unknown error"
  | OtherThrown _ => "Unknown error"
  end.

(** The [data] built in the [isCompleted(ctx)] branch. *)
Definition result_data (ctx : CompletedContext) : CrawlResultData :=
  {| markdown := d_markdown ctx;
     title := d_title ctx;
     metadata := Some (Runtime.removeUndefined (d_metadata ctx)) |}.

(** What the [try] block returns for the context the workflow ended with:
    [isCompleted(ctx)] narrows [ctx] to the completed variant. *)
Definition of_context (ctx : CrawlContext) : CrawlResult :=
  if Guards.isCompleted ctx then
    match ctx with
    | Completed c => Success (result_data c)
    | _ => Failure (unknown "Workflow incomplete" None)
    end
  else Failure (unknown "Workflow incomplete" None).

(** [CrawlService.crawlUrl(url)]: the [catch] turns every rejection of the
    run into a returned failure. *)
Definition crawlUrl (svc : CrawlService) (url : string)
  : Promise CrawlResult :=
  match Workflow.run (workflow svc) (Initial {| i_url := url |})
          (Some {| WorkflowTypes.timeoutMs := Some (timeoutMs svc) |}) with
  | Settles t (Fulfilled ctx) => Settles t (Fulfilled (of_context ctx))
  | Settles t (Rejected err) =>
      Settles t
        (Fulfilled (Failure (unknown (caught_message err) (Some err))))
  | Pending => Pending
  end.

End CrawlService.

(** ** [src/services/CachedCrawlService.ts] *)

Module CachedCrawlService.
Import Types Async.

(** [Number(process.env.X) || dflt]: an unset or unreadable variable gives
    [NaN], and [NaN] and [0] are falsy. *)
Definition env_number (env : option Z) (dflt : Z) : Z :=
  match env with
  | Some n => if n =? 0 then dflt else n
  | None => dflt
  end.

Definition DEFAULT_CACHE_TTL_MS (env : option Z) : Z := env_number env 300000.
Definition DEFAULT_CACHE_MAX_SIZE (env : option Z) : Z := env_number env 100.

(** [crawlUrl(url)] on the private [cache], called at clock value [now];
    [inner] is [this.crawlService.crawlUrl].  The second component is the
    cache the call leaves behind. *)
Definition crawlUrl (inner : string -> Promise CrawlResult)
    (cache : Cache.CacheService CrawlResultData) (now : Z) (url : string)
  : Promise CrawlResult * Cache.CacheService CrawlResultData :=
  let '(cached, cache1) := Cache.get cache now url in
  match cached with
  | Some data => (resolve (Success data), cache1)
  | None =>
      match inner url with
      | Settles t (Fulfilled result) =>
          (Settles t (Fulfilled result),
           match result with
           | Success data => Cache.set cache1 (now + t) url data
           | Failure _ => cache1
           end)
      | Settles t (Rejected err) => (Settles t (Rejected err), cache1)
      | Pending => (Pending, cache1)
      end
  end.

(** Successive calls of [crawlUrl(url)] for one URL, made at the clock
    values [nows], each on the cache that the call before it left: the
    answers, and the cache after the last call. *)
Fixpoint crawl_calls (inner : string -> Promise CrawlResult)
    (cache : Cache.CacheService CrawlResultData) (nows : list Z)
    (url : string)
  : list (Promise CrawlResult) * Cache.CacheService CrawlResultData :=
  match nows with
  | [] => ([], cache)
  | now :: rest =>
      let '(answer, cache1) := crawlUrl inner cache now url in
      let '(answers, cache2) := crawl_calls inner cache1 rest url in
      (answer :: answers, cache2)
  end.

End CachedCrawlService.

(** ** [src/lib/errors.ts] *)

Module Errors.
Import Types Async.

Definition crawlErrorToStatusCode (error : CrawlError) : Z :=
  match error with
  | fetch_failed _ _ _ => 502
  | timeout _ _ => 504
  | parse_failed _ _ => 422
  | invalid_html _ => 422
  | network_error _ _ => 503
  | unknown _ _ => 500
  end.

Definition getErrorMessage (error : CrawlError) : string :=
  match error with
  | fetch_failed status statusText _ =>
      "Fetch failed: " +:+ pretty status +:+ " " +:+ statusText
  | timeout timeoutMs _ =>
      "Request timed out after " +:+ pretty timeoutMs +:+ "ms"
  | parse_failed m _ => m
  | invalid_html m => m
  | network_error m _ => m
  | unknown m _ => m
  end.

(** [error.type] *)
Definition error_type (error : CrawlError) : string :=
  match error with
  | fetch_failed _ _ _ => "fetch_failed"
  | timeout _ _ => "timeout"
  | parse_failed _ _ => "parse_failed"
  | invalid_html _ => "invalid_html"
  | network_error _ _ => "network_error"
  | unknown _ _ => "unknown"
  end.

(** ['message' in error] for an object of one of the six [CrawlError]
    shapes: [fetch_failed] and [timeout] declare no [message]. *)
Definition has_message (error : CrawlError) : bool :=
  match error with
  | fetch_failed _ _ _ => false
  | timeout _ _ => false
  | _ => true
  end.

(** [isCrawlError]: an object with both a [type] and a [message] key; on
    the thrown values described with [JsThrown], those are the objects of
    the four shapes that declare a [message]. *)
Definition isCrawlError (error : JsThrown) : option CrawlError :=
  match error with
  | CrawlErrorObj e => if has_message e then Some e else None
  | _ => None
  end.

(** The status and the JSON body of a response. *)
Inductive Payload :=
| ResultJson (r : CrawlResult)
| ErrorJson (type message : string)
| ValidationJson
| InvalidInputJson.

Record HttpResponse := mkHttp { http_status : Z; payload : Payload }.

(** [errorHandler(error, c)] *)
Definition errorHandler (error : JsThrown) : HttpResponse :=
  match error with
  | ApiErrorObj statusCode m =>
      {| http_status := statusCode; payload := ErrorJson "unknown" m |}
  | ZodErrorObj _ => {| http_status := 400; payload := ValidationJson |}
  | _ =>
      match isCrawlError error with
      | Some e =>
          {| http_status := crawlErrorToStatusCode e;
             payload := ErrorJson (error_type e) (getErrorMessage e) |}
      | None =>
          {| http_status := 500;
             payload :=
               ErrorJson "unknown" (CrawlService.caught_message error) |}
      end
  end.

End Errors.

(** ** [src/index.ts]: the [POST /crawl] route *)

Module Index.
Import Types Async Errors.

(** What the handler reads from the request: [c.req.json()] may throw, and
    [CrawlInputSchema.safeParse] may refuse the body. *)
Inductive RequestBody :=
| Malformed (err : JsThrown)
| Invalid
| Valid (url : string).

(** The handler of [app.post('/crawl', ...)] behind the rate-limit
    middleware; [crawl] is [cachedCrawlService.crawlUrl].  The [catch] sends
    every thrown value to [errorHandler]. *)
Definition post_crawl (crawl : string -> Promise CrawlResult)
    (body : RequestBody) : Promise HttpResponse :=
  match body with
  | Malformed err => resolve (errorHandler err)
  | Invalid => resolve {| http_status := 422; payload := InvalidInputJson |}
  | Valid url =>
      match crawl url with
      | Settles t (Fulfilled result) =>
          Settles t
            (Fulfilled
               (if success result
                then {| http_status := 200; payload := ResultJson result |}
                else {| http_status := 500; payload := ResultJson result |}))
      | Settles t (Rejected err) => Settles t (Fulfilled (errorHandler err))
      | Pending => Pending
      end
  end.

(** The status of the response, when one is sent. *)
Definition response_status (p : Promise HttpResponse) : option Z :=
  match p with
  | Settles _ (Fulfilled r) => Some (http_status r)
  | _ => None
  end.

(** [const workflow = createCrawlWorkflow();
    const crawlService = new CrawlService(workflow)]: the service with its
    default deadline. *)
Definition crawlService (w : Tasks.World) : CrawlService.CrawlService :=
  {| CrawlService.workflow := Tasks.createCrawlWorkflow w;
     CrawlService.timeoutMs := CrawlService.DEFAULT_TIMEOUT_MS |}.

(** One [POST /crawl] request that passed the rate limiter, at clock value
    [now], on the cache of the caching service: the response, and the cache
    afterwards. *)
Definition app_post_crawl (w : Tasks.World)
    (cache : Cache.CacheService CrawlResultData) (now : Z)
    (body : RequestBody)
  : Promise HttpResponse * Cache.CacheService CrawlResultData :=
  match body with
  | Valid url =>
      let r :=
        CachedCrawlService.crawlUrl (CrawlService.crawlUrl (crawlService w))
          cache now url in
      (post_crawl (fun _ => fst r) body, snd r)
  | _ => (post_crawl (fun _ => Pending) body, cache)
  end.

End Index.

(** ** [getRateLimitConfig] of [src/lib/rateLimiter.ts] and
    [src/middleware/rateLimit.ts] *)

Module RateLimitMiddleware.
Import Types Async.

(** [Number(process.env.RATE_LIMIT_MAX_REQUESTS) || 10] and
    [Number(process.env.RATE_LIMIT_WINDOW_MS) || 60_000] *)
Definition defaultMaxRequests (env : option Z) : Z :=
  CachedCrawlService.env_number env 10.
Definition defaultWindowMs (env : option Z) : Z :=
  CachedCrawlService.env_number env 60000.

(** [getRateLimitConfig()]: the pair [(maxRequests, windowMs)]. *)
Definition getRateLimitConfig (envMax envWindow : option Z) : Z * Z :=
  (defaultMaxRequests envMax, defaultWindowMs envWindow).

(** [s.split(',')[0]]: what comes before the first comma (character
    code 44). *)
Fixpoint first_segment (s : string) : string :=
  match s with
  | EmptyString => EmptyString
  | String c rest =>
      if Ascii.eqb c (Ascii.ascii_of_nat 44) then EmptyString
      else String c (first_segment rest)
  end.

(** [forwarded?.split(',')[0]?.trim() ?? realIp ?? 'unknown'], with the
    two headers [x-forwarded-for] and [x-real-ip]; [trim] is
    [String.prototype.trim]. *)
Definition identifier (trim : string -> string)
    (forwarded realIp : option string) : string :=
  match forwarded with
  | Some f => trim (first_segment f)
  | None =>
      match realIp with
      | Some ip => ip
      | None => "unknown"
      end
  end.

(** [Math.ceil(windowMs / 1000)] *)
Definition retryAfter (windowMs : Z) : Z := - ((- windowMs) / 1000).

(** What the middleware does with a request: it answers 429 itself, with
    the [Retry-After] header, or hands over to the route ([await next()]). *)
Inductive Decision :=
| TooManyRequests (status : Z) (retry_after : string)
| Next.

(** The function that [rateLimitMiddleware()] returns, on the map of the
    shared [rateLimiter], at clock value [now]. *)
Definition rateLimitMiddleware (config : Z * Z) (trim : string -> string)
    (requests : gmap string (list Z)) (now : Z)
    (forwarded realIp : option string)
  : Decision * gmap string (list Z) :=
  let '(maxRequests, windowMs) := config in
  let id := identifier trim forwarded realIp in
  let '(allowed, requests') :=
    RateLimiter.checkLimit requests now id maxRequests windowMs in
  if negb allowed then
    (TooManyRequests 429 (pretty (retryAfter windowMs)), requests')
  else (Next, requests').

(** The decisions on successive requests with the same two headers, at the
    given clock values. *)
Fixpoint decisions (config : Z * Z) (trim : string -> string)
    (requests : gmap string (list Z)) (forwarded realIp : option string)
    (times : list Z) : list Decision :=
  match times with
  | [] => []
  | now :: rest =>
      let '(d, requests') :=
        rateLimitMiddleware config trim requests now forwarded realIp in
      d :: decisions config trim requests' forwarded realIp rest
  end.

(** The string has no comma. *)
Definition comma_free (s : string) : Prop :=
  Forall (fun c => c ≠ Ascii.ascii_of_nat 44) (String.list_ascii_of_string s).

(** The state the process keeps between requests: the map of the rate
    limiter and the cache of the caching service. *)
Record AppState := mkAppState {
  limiter : gmap string (list Z);
  crawl_cache : Cache.CacheService CrawlResultData
}.

(** What a client of [POST /crawl] gets: the answer of the middleware, or
    the answer of the route. *)
Inductive Answer :=
| Limited (status : Z) (retry_after : string)
| Routed (response : Promise Errors.HttpResponse).

(** One [POST /crawl] request through the middleware and the route. *)
Definition handle (config : Z * Z) (trim : string -> string)
    (w : Tasks.World) (st : AppState) (now : Z)
    (forwarded realIp : option string) (body : Index.RequestBody)
  : Answer * AppState :=
  match rateLimitMiddleware config trim (limiter st) now forwarded realIp
  with
  | (TooManyRequests status h, requests') =>
      (Limited status h,
       {| limiter := requests'; crawl_cache := crawl_cache st |})
  | (Next, requests') =>
      let r := Index.app_post_crawl w (crawl_cache st) now body in
      (Routed (fst r), {| limiter := requests'; crawl_cache := snd r |})
  end.

End RateLimitMiddleware.

(** ** A sample world, for the concrete runs below *)

Module Demo.
Import Types Async Tasks.

(** The page of the end-to-end example:
    [<html><head><title>T</title></head><body><article><p>Hi</p></article>
    </body></html>]. *)
Definition page : string :=
  "<html><head><title>T</title></head><body><article><p>Hi</p></article></body></html>".

(** [https://example.com] answers 200 with [page] after 120 ms;
    [https://example.com/missing] answers 404 after 80 ms;
    [https://flaky.example] fails once and then answers 503;
    [https://slow.example] answers 200 after 200 ms and then takes 45 s to
    deliver the body; any other host never answers. *)
Definition demo_net (url : string) (attempt : nat) : Promise Response :=
  if decide (url = "https://example.com") then
    Settles 120
      (Fulfilled {| status := 200; statusText := "OK";
                    text := resolve page |})
  else if decide (url = "https://example.com/missing") then
    Settles 80
      (Fulfilled {| status := 404; statusText := "Not Found";
                    text := resolve EmptyString |})
  else if decide (url = "https://flaky.example") then
    match attempt with
    | O => Settles 30 (Rejected (ErrorObj "TypeError" "fetch failed"))
    | _ =>
        Settles 50
          (Fulfilled {| status := 503; statusText := "Service Unavailable";
                        text := resolve EmptyString |})
    end
  else if decide (url = "https://slow.example") then
    Settles 200
      (Fulfilled {| status := 200; statusText := "OK";
                    text := Settles 45000 (Fulfilled page) |})
  else Pending.

Definition world : World :=
  {| net := demo_net;
     retryable := fun _ => true;
     backoff := fun attempt => 1000 * 2 ^ Z.of_nat attempt;
     title_capture := fun _ => Some "T";
     trim := fun s => s;
     head_title := fun _ => Some "T";
     head_metas := fun _ => [];
     link_href := fun _ _ => None;
     select_html := fun selector _ =>
       if decide (selector = "article") then Some (Some "<p>Hi</p>")
       else None;
     serialize := fun html => html;
     strip_presentation := fun html => html;
     turndown := fun _ => "Hi" |}.

Definition parsed : ParsedContext :=
  {| p_url := "https://example.com"; p_html := page; p_title := Some "T";
     p_metadata := {["title" := Some "T"]}; p_document := "<p>Hi</p>" |}.

(** A world in which every connection is refused after 10 ms; [retried]
    tells whether [p-retry] retries that failure. *)
Definition refusing (retried : bool) : World :=
  {| net := fun _ _ =>
       Settles 10 (Rejected (ErrorObj "TypeError" "fetch failed"));
     retryable := fun _ => retried;
     backoff := fun attempt => 1000 * 2 ^ Z.of_nat attempt;
     title_capture := fun _ => None;
     trim := fun s => s;
     head_title := fun _ => None;
     head_metas := fun _ => [];
     link_href := fun _ _ => None;
     select_html := fun _ _ => None;
     serialize := fun html => html;
     strip_presentation := fun html => html;
     turndown := fun html => html |}.

End Demo.

(** * Properties *)

(** ** The cache *)

Section cache_facts.
Context {V : Type}.
Implicit Types (c : Cache.CacheService V) (l : list string).

Lemma splice_first_notin key l : key ∉ l → Cache.splice_first key l = l.
Proof.
  induction l as [|x r IH]; simpl; [done|].
  intros Hn. case_decide as Hx.
  - subst. exfalso. apply Hn. left.
  - f_equal. apply IH. intros Hin. apply Hn. by right.
Qed.

Lemma filter_ne_notin (key : string) l :
  key ∉ l → filter (λ k, k ≠ key) l = l.
Proof.
  induction l as [|x r IH]; intros Hn; [done|].
  rewrite filter_cons_True by (intros ->; apply Hn; left).
  f_equal. apply IH. intros Hin. apply Hn. by right.
Qed.

(** On an array without duplicates, removing the first occurrence removes
    the key. *)
Lemma splice_first_filter key l :
  NoDup l → Cache.splice_first key l = filter (λ k, k ≠ key) l.
Proof.
  induction 1 as [|y r Hy Hnd IH]; simpl; [done|].
  case_decide as Hx.
  - subst y. rewrite filter_cons_False by (intros H; by apply H).
    symmetry. by apply filter_ne_notin.
  - rewrite filter_cons_True by done. by rewrite IH.
Qed.

Lemma splice_first_elem key l x :
  NoDup l → x ∈ Cache.splice_first key l ↔ x ∈ l ∧ x ≠ key.
Proof.
  induction 1 as [|y r Hy Hnd IH]; simpl.
  - split; [intros Hin | intros [Hin _]]; by apply elem_of_nil in Hin.
  - case_decide as Hx.
    + subst y. split.
      * intros Hin. split; [by right|]. intros ->. done.
      * intros [Hin Hne]. apply elem_of_cons in Hin as [?|?]; done.
    + rewrite !elem_of_cons, IH. split.
      * intros [->|[? ?]]; [split; [by left|done] | split; [by right|done]].
      * intros [[->|?] ?]; [by left | by right].
Qed.

Lemma splice_first_NoDup key l : NoDup l → NoDup (Cache.splice_first key l).
Proof.
  induction 1 as [|y r Hy Hnd IH]; simpl; [constructor|].
  case_decide; [done|]. constructor; [|done].
  rewrite splice_first_elem by done. tauto.
Qed.

Lemma splice_first_length key l :
  key ∈ l → S (length (Cache.splice_first key l)) = length l.
Proof.
  induction l as [|y r IH]; simpl.
  - intros Hin. by apply elem_of_nil in Hin.
  - intros Hin. case_decide as Hx; [done|].
    apply elem_of_cons in Hin as [->|Hin]; [done|].
    simpl. f_equal. by apply IH.
Qed.

Lemma wf_new ttl max : Cache.wf (Cache.new (V:=V) ttl max).
Proof.
  split; simpl; [constructor|].
  intros k. rewrite lookup_empty. split.
  - intros Hin. by apply elem_of_nil in Hin.
  - intros [? ?]. done.
Qed.

Lemma wf_entries c : Cache.wf c → Cache.entries c = length (Cache.order c).
Proof.
  intros [Hnd Hdom]. unfold Cache.entries.
  rewrite <- size_dom.
  assert (dom (Cache.cache c) = list_to_set (Cache.order c)) as ->.
  { apply set_eq. intros k.
    rewrite elem_of_dom, elem_of_list_to_set. symmetry. apply Hdom. }
  by rewrite size_list_to_set.
Qed.

Lemma wf_delete c key : Cache.wf c → Cache.wf (snd (Cache.delete c key)).
Proof.
  intros [Hnd Hdom]. unfold Cache.delete.
  destruct (Cache.cache c !! key) as [e|] eqn:He; simpl; [|done].
  split; simpl; [by apply splice_first_NoDup|].
  intros k. rewrite splice_first_elem by done.
  rewrite Hdom. destruct (decide (k = key)) as [->|Hne].
  - rewrite lookup_delete_eq. split; [tauto|]. intros [? ?]; done.
  - rewrite lookup_delete_ne by done. tauto.
Qed.

Lemma wf_get c now key : Cache.wf c → Cache.wf (snd (Cache.get c now key)).
Proof.
  intros Hwf. unfold Cache.get.
  destruct (Cache.cache c !! key) as [e|]; [|done].
  destruct (now >? Cache.expiresAt e); [by apply wf_delete | done].
Qed.

Lemma wf_evict_oldest c : Cache.wf c → Cache.wf (Cache.evict_oldest c).
Proof.
  intros [Hnd Hdom]. unfold Cache.evict_oldest.
  destruct (Cache.order c) as [|o r] eqn:Ho; [by split; rewrite ?Ho|].
  apply NoDup_cons in Hnd as [Ho' Hr].
  split; simpl; [done|].
  intros k. destruct (decide (k = o)) as [->|Hne].
  - rewrite lookup_delete_eq. split; [done|]. intros [? ?]; done.
  - rewrite lookup_delete_ne by done. rewrite <- Hdom, elem_of_cons.
    tauto.
Qed.

Lemma wf_set c now key v : Cache.wf c → Cache.wf (Cache.set c now key v).
Proof.
  intros Hwf. unfold Cache.set.
  match goal with |- context [if ?b then _ else _] => generalize b end.
  intros b.
  assert (Cache.wf (if b then Cache.evict_oldest c else c)) as Hwf1.
  { destruct b; [by apply wf_evict_oldest | done]. }
  revert Hwf1. generalize (if b then Cache.evict_oldest c else c).
  intros c1 [Hnd Hdom].
  split; simpl.
  - apply NoDup_app. split; [by apply splice_first_NoDup|]. split.
    + intros x Hx Hin. apply list_elem_of_singleton in Hin as ->.
      apply splice_first_elem in Hx; [|done]. tauto.
    + apply NoDup_singleton.
  - intros k. rewrite elem_of_app, list_elem_of_singleton.
    rewrite splice_first_elem by done.
    destruct (decide (k = key)) as [->|Hne].
    + rewrite lookup_insert_eq. split; [eauto | tauto].
    + rewrite lookup_insert_ne by done. rewrite <- Hdom. tauto.
Qed.

Lemma wf_step c o : Cache.wf c → Cache.wf (Cache.step c o).
Proof.
  destruct o; simpl; [apply wf_get | apply wf_set | apply wf_delete].
Qed.

Lemma wf_run c ops : Cache.wf c → Cache.wf (Cache.run c ops).
Proof.
  revert c. induction ops as [|o ops IH]; intros c Hwf; simpl; [done|].
  apply IH. by apply wf_step.
Qed.

(** The two constructor parameters never change. *)
Lemma params_delete c key :
  Cache.ttlMs (snd (Cache.delete c key)) = Cache.ttlMs c
  ∧ Cache.maxSize (snd (Cache.delete c key)) = Cache.maxSize c.
Proof. unfold Cache.delete. by destruct (Cache.cache c !! key). Qed.

Lemma params_get c now key :
  Cache.ttlMs (snd (Cache.get c now key)) = Cache.ttlMs c
  ∧ Cache.maxSize (snd (Cache.get c now key)) = Cache.maxSize c.
Proof.
  unfold Cache.get. destruct (Cache.cache c !! key) as [e|]; [|done].
  destruct (now >? Cache.expiresAt e); [apply params_delete | done].
Qed.

Lemma params_set c now key v :
  Cache.ttlMs (Cache.set c now key v) = Cache.ttlMs c
  ∧ Cache.maxSize (Cache.set c now key v) = Cache.maxSize c.
Proof.
  unfold Cache.set, Cache.evict_oldest. simpl.
  destruct (_ && _); [|done]. by destruct (Cache.order c).
Qed.

Lemma params_step c o :
  Cache.ttlMs (Cache.step c o) = Cache.ttlMs c
  ∧ Cache.maxSize (Cache.step c o) = Cache.maxSize c.
Proof.
  destruct o; unfold Cache.step;
    [apply params_get | apply params_set | apply params_delete].
Qed.

Lemma params_run c ops :
  Cache.ttlMs (Cache.run c ops) = Cache.ttlMs c
  ∧ Cache.maxSize (Cache.run c ops) = Cache.maxSize c.
Proof.
  revert c. induction ops as [|o ops IH]; intros c; simpl; [done|].
  destruct (IH (Cache.step c o)) as [-> ->]. apply params_step.
Qed.

(** The length of [order] after each method, on a well-formed cache. *)
Lemma length_delete c key :
  (length (Cache.order (snd (Cache.delete c key)))
   <= length (Cache.order c))%nat.
Proof.
  unfold Cache.delete. destruct (Cache.cache c !! key); simpl; [|lia].
  generalize (Cache.order c). intros l.
  induction l as [|x r IH]; simpl; [lia|]. case_decide; simpl; lia.
Qed.

Lemma length_get c now key :
  (length (Cache.order (snd (Cache.get c now key)))
   <= length (Cache.order c))%nat.
Proof.
  unfold Cache.get. destruct (Cache.cache c !! key) as [e|]; [|simpl; lia].
  destruct (now >? Cache.expiresAt e); [apply length_delete | simpl; lia].
Qed.

Lemma length_set c now key v :
  Cache.wf c → 1 ≤ Cache.maxSize c →
  Z.of_nat (length (Cache.order c)) ≤ Cache.maxSize c →
  Z.of_nat (length (Cache.order (Cache.set c now key v))) ≤ Cache.maxSize c.
Proof.
  intros [Hnd Hdom] HM Hlen. unfold Cache.set. simpl.
  rewrite length_app. simpl.
  destruct (Cache.cache c !! key) as [e|] eqn:He.
  - (* the key is stored: no eviction, it moves to the end *)
    rewrite bool_decide_eq_true_2 by eauto. simpl.
    assert (key ∈ Cache.order c) as Hin by (apply Hdom; eauto).
    pose proof (splice_first_length key _ Hin). lia.
  - rewrite bool_decide_eq_false_2 by (intros [? ?]; done). simpl.
    assert (key ∉ Cache.order c) as Hnin.
    { intros Hin. apply Hdom in Hin as [? ?]. congruence. }
    rewrite Z.geb_leb.
    destruct (Z.leb_spec (Cache.maxSize c) (Z.of_nat (length (Cache.order c)))).
    + unfold Cache.evict_oldest.
      destruct (Cache.order c) as [|o r] eqn:Ho; simpl in *; [lia|].
      rewrite splice_first_notin; [lia|].
      intros Hin. apply Hnin. by right.
    + rewrite splice_first_notin by done. lia.
Qed.

End cache_facts.

Section cache_capacity.
Context {V : Type}.
Implicit Types (c : Cache.CacheService V).

Lemma capacity_step c o :
  Cache.wf c → 1 ≤ Cache.maxSize c →
  Z.of_nat (length (Cache.order c)) ≤ Cache.maxSize c →
  Z.of_nat (length (Cache.order (Cache.step c o))) ≤ Cache.maxSize c.
Proof.
  intros Hwf HM Hlen. destruct o as [now k|now k v|k]; unfold Cache.step.
  - pose proof (length_get c now k). lia.
  - by apply length_set.
  - pose proof (length_delete c k). lia.
Qed.

Lemma capacity_run c ops :
  Cache.wf c → 1 ≤ Cache.maxSize c →
  Z.of_nat (length (Cache.order c)) ≤ Cache.maxSize c →
  Z.of_nat (length (Cache.order (Cache.run c ops))) ≤ Cache.maxSize c.
Proof.
  revert c. induction ops as [|o ops IH]; intros c Hwf HM Hlen; simpl; [done|].
  destruct (params_step c o) as [_ Hmax].
  rewrite <- Hmax. apply IH.
  - by apply wf_step.
  - by rewrite Hmax.
  - rewrite Hmax. by apply capacity_step.
Qed.

Lemma set_fresh_lookup c now key v k :
  Cache.wf c → key ∉ Cache.order c →
  Cache.cache (Cache.set c now key v) !! k =
    if decide (k = key)
    then Some {| Cache.value := v; Cache.expiresAt := now + Cache.ttlMs c |}
    else if (Z.of_nat (length (Cache.order c)) >=? Cache.maxSize c)
         then match Cache.order c with
              | [] => Cache.cache c !! k
              | oldest :: _ => if decide (k = oldest) then None
                               else Cache.cache c !! k
              end
         else Cache.cache c !! k.
Proof.
  intros [Hnd Hdom] Hnin. unfold Cache.set. simpl.
  assert (Cache.cache c !! key = None) as He.
  { destruct (Cache.cache c !! key) eqn:E; [|done].
    exfalso. apply Hnin, Hdom. eauto. }
  rewrite He, bool_decide_eq_false_2 by (intros [? ?]; done). simpl.
  case_decide as Hk; [subst; by rewrite lookup_insert_eq|].
  rewrite lookup_insert_ne by done.
  destruct (_ >=? _); [|done]. unfold Cache.evict_oldest.
  destruct (Cache.order c) as [|o r]; [done|]. simpl.
  case_decide; [subst; by rewrite lookup_delete_eq|].
  by rewrite lookup_delete_ne.
Qed.

Lemma set_fresh_order c now key v :
  Cache.wf c → key ∉ Cache.order c →
  Cache.order (Cache.set c now key v) =
    (if (Z.of_nat (length (Cache.order c)) >=? Cache.maxSize c)
     then tail (Cache.order c) else Cache.order c) ++ [key].
Proof.
  intros [Hnd Hdom] Hnin. unfold Cache.set. simpl.
  assert (Cache.cache c !! key = None) as He.
  { destruct (Cache.cache c !! key) eqn:E; [|done].
    exfalso. apply Hnin, Hdom. eauto. }
  rewrite He, bool_decide_eq_false_2 by (intros [? ?]; done). simpl.
  destruct (_ >=? _).
  - unfold Cache.evict_oldest. destruct (Cache.order c) as [|o r] eqn:Ho.
    + by rewrite Ho.
    + simpl. rewrite splice_first_notin; [done|].
      intros Hin. apply Hnin. by right.
  - by rewrite splice_first_notin.
Qed.

Lemma set_all_snoc c l now k v :
  Cache.set_all c (l ++ [(now, k, v)]) = Cache.set (Cache.set_all c l) now k v.
Proof. unfold Cache.set_all. by rewrite fold_left_app. Qed.

Lemma wf_set_all c l : Cache.wf c → Cache.wf (Cache.set_all c l).
Proof.
  revert c. induction l as [|[[n k] v] l IH]; intros c Hwf; [done|].
  apply IH. by apply wf_set.
Qed.

Lemma params_set_all c l :
  Cache.ttlMs (Cache.set_all c l) = Cache.ttlMs c
  ∧ Cache.maxSize (Cache.set_all c l) = Cache.maxSize c.
Proof.
  revert c. induction l as [|[[n k] v] l IH]; intros c; [done|].
  destruct (IH (Cache.set c n k v)) as [H1 H2].
  destruct (params_set c n k v) as [H3 H4].
  split; [by rewrite <- H3 | by rewrite <- H4].
Qed.

(** While there is room, distinct keys are appended in insertion order. *)
Lemma set_all_room ttl M (l : list (Z * string * V)) :
  NoDup (Cache.keys l) → Z.of_nat (length l) ≤ M →
  Cache.order (Cache.set_all (Cache.new ttl M) l) = Cache.keys l.
Proof.
  induction l as [|[[n k] v] l IH] using rev_ind; intros Hnd Hlen; [done|].
  unfold Cache.keys in *. rewrite map_app in Hnd. simpl in Hnd.
  rewrite length_app in Hlen. simpl in Hlen.
  apply NoDup_app in Hnd as (Hnd & Hk & _).
  specialize (IH Hnd ltac:(lia)).
  rewrite set_all_snoc, set_fresh_order.
  - destruct (params_set_all (Cache.new ttl M) l) as [_ ->]. simpl.
    rewrite IH, length_map, Z.geb_leb.
    destruct (Z.leb_spec M (Z.of_nat (length l))); [lia|].
    by rewrite map_app.
  - apply wf_set_all, wf_new.
  - rewrite IH. intros Hin. apply (Hk k Hin). by left.
Qed.

(** C2, the claim as stated, fails on a cache constructed with maximum size
    0: [order.length >= maxSize] holds on the empty cache, [shift] finds
    nothing to evict, and the entry is stored all the same. *)
Lemma cache_capacity_fails_for_zero :
  ¬ (Z.of_nat (Cache.entries (Cache.run (Cache.new 300000 0)
                                [Cache.OpSet 0 "a" "x"]))
     ≤ Cache.maxSize (Cache.new (V:=string) 300000 0)).
Proof. vm_compute. intros H. by apply H. Qed.

(** C2, amended: on a cache constructed with maximum size [M >= 1] the
    number of stored entries is at most [M] after every sequence of
    [get]/[set]/[delete] calls, and inserting [M + 1] distinct keys into the
    new cache leaves exactly the last [M] of them: the one evicted key is
    the first inserted, the least recently used one. *)
Theorem cache_capacity_bound ttl M (ops : list (Cache.op V))
    (l : list (Z * string * V)) :
  1 ≤ M →
  Z.of_nat (Cache.entries (Cache.run (Cache.new ttl M) ops)) ≤ M
  ∧ (NoDup (Cache.keys l) → Z.of_nat (length l) = M + 1 →
     let c := Cache.set_all (Cache.new ttl M) l in
     Cache.order c = tail (Cache.keys l)
     ∧ Z.of_nat (Cache.entries c) = M
     ∧ ∀ k, k ∈ Cache.keys l →
         (Cache.cache c !! k = None ↔ head (Cache.keys l) = Some k)).
Proof.
  intros HM. split.
  - rewrite wf_entries by apply wf_run, wf_new.
    apply (capacity_run (Cache.new ttl M) ops);
      [apply wf_new | done | simpl; lia].
  - intros Hnd Hlen c.
    destruct l as [|[[n k] v] l _] using rev_ind; [simpl in Hlen; lia|].
    rewrite length_app in Hlen. simpl in Hlen.
    assert (Hnd' := Hnd). unfold Cache.keys in Hnd'.
    rewrite map_app in Hnd'. simpl in Hnd'.
    apply NoDup_app in Hnd' as (Hndl & Hk & _).
    fold (Cache.keys l) in Hndl, Hk.
    pose proof (set_all_room ttl M l Hndl ltac:(lia)) as Hroom.
    assert (Cache.wf (Cache.set_all (Cache.new ttl M) l)) as Hwfl
      by apply wf_set_all, wf_new.
    assert (Cache.order c = tail (Cache.keys (l ++ [(n, k, v)]))) as Hord.
    { subst c. rewrite set_all_snoc, set_fresh_order; [|done|].
      - destruct (params_set_all (Cache.new ttl M) l) as [_ ->]. simpl.
        rewrite Hroom. unfold Cache.keys at 1. rewrite length_map, Z.geb_leb.
        destruct (Z.leb_spec M (Z.of_nat (length l))); [|lia].
        unfold Cache.keys. rewrite map_app. simpl.
        destruct l; [simpl in *; lia | done].
      - rewrite Hroom. intros Hin. apply (Hk k Hin). by left. }
    assert (Cache.wf c) as Hwfc by (subst c; apply wf_set_all, wf_new).
    split; [done|]. split.
    + rewrite wf_entries, Hord by done.
      unfold Cache.keys. clear -Hlen HM.
      destruct l as [|x l']; [simpl in *; lia|].
      simpl in *. rewrite length_map, length_app. simpl. lia.
    + intros k0 Hin. destruct Hwfc as [_ Hdom].
      assert (Cache.cache c !! k0 = None ↔ k0 ∉ Cache.order c) as ->.
      { rewrite Hdom. rewrite eq_None_not_Some. done. }
      rewrite Hord. revert Hin Hnd.
      destruct (Cache.keys (l ++ [(n, k, v)])) as [|h t]; simpl.
      * intros Hin. by apply elem_of_nil in Hin.
      * intros Hin Hnd0. apply NoDup_cons in Hnd0 as [Hh _].
        apply elem_of_cons in Hin as [->|Hin].
        -- split; [done | intros _; done].
        -- split; [done | intros [= ->]; done].
Qed.

End cache_capacity.

(** A cache of two entries and three insertions. *)
Lemma cache_capacity_bound_witness :
  Z.of_nat (Cache.entries
              (Cache.run (Cache.new 300000 2)
                 [Cache.OpSet 0 "a" "x"; Cache.OpGet 1 "a";
                  Cache.OpSet 2 "b" "y"; Cache.OpSet 3 "c" "z"])) ≤ 2
  ∧ Cache.order
      (Cache.set_all (Cache.new 300000 2)
         [(0, "a", "x"); (1, "b", "y"); (2, "c", "z")]) = ["b"; "c"].
Proof.
  pose proof (cache_capacity_bound (V:=string) 300000 2
    [Cache.OpSet 0 "a" "x"; Cache.OpGet 1 "a";
     Cache.OpSet 2 "b" "y"; Cache.OpSet 3 "c" "z"]
    [(0, "a", "x"); (1, "b", "y"); (2, "c", "z")] ltac:(lia)) as [H1 H2].
  split; [exact H1|].
  apply H2; [compute_done | reflexivity].
Defined.

Section cache_ttl.
Context {V : Type}.
Implicit Types (c : Cache.CacheService V).

Lemma set_lookup_key c now key v :
  Cache.cache (Cache.set c now key v) !! key =
    Some {| Cache.value := v; Cache.expiresAt := now + Cache.ttlMs c |}.
Proof. unfold Cache.set. simpl. apply lookup_insert_eq. Qed.

(** A hit changes nothing in the object: neither [cache] nor [order]. *)
Lemma get_hit_unchanged c now key v :
  fst (Cache.get c now key) = Some v → snd (Cache.get c now key) = c.
Proof.
  unfold Cache.get. destruct (Cache.cache c !! key) as [e|]; [|done].
  by destruct (now >? Cache.expiresAt e).
Qed.

(** C3: right after [set(k, v)] at clock [now], a [get(k)] at a clock value
    up to [now + ttlMs] returns [v] (and changes nothing); a [get(k)] at a
    later clock value returns [undefined] and removes [k] from the map and
    from the order array. *)
Theorem cache_set_then_get ttl M (ops : list (Cache.op V)) now k v now' :
  let c1 := Cache.set (Cache.run (Cache.new ttl M) ops) now k v in
  (now' ≤ now + ttl → Cache.get c1 now' k = (Some v, c1))
  ∧ (now + ttl < now' →
     fst (Cache.get c1 now' k) = None
     ∧ Cache.cache (snd (Cache.get c1 now' k)) !! k = None
     ∧ k ∉ Cache.order (snd (Cache.get c1 now' k))).
Proof.
  intros c1.
  assert (Cache.wf c1) as Hwf by apply wf_set, wf_run, wf_new.
  assert (Cache.cache c1 !! k =
          Some {| Cache.value := v; Cache.expiresAt := now + ttl |}) as Hk.
  { subst c1. rewrite set_lookup_key.
    by destruct (params_run (Cache.new ttl M) ops) as [-> _]. }
  split; intros Ht; unfold Cache.get; rewrite Hk; simpl.
  - rewrite Z.gtb_ltb. destruct (Z.ltb_spec (now + ttl) now'); [lia | done].
  - rewrite Z.gtb_ltb. destruct (Z.ltb_spec (now + ttl) now'); [|lia].
    unfold Cache.delete. rewrite Hk. simpl.
    split; [done|]. split; [apply lookup_delete_eq|].
    destruct Hwf as [Hnd _]. rewrite splice_first_elem by done. tauto.
Qed.

End cache_ttl.

(** An entry read within its lifetime, and read again after it. *)
Lemma cache_set_then_get_witness :
  fst (Cache.get (Cache.set (Cache.new 1000 10) 50 "k" "v") 1050 "k")
    = Some "v"
  ∧ fst (Cache.get (Cache.set (Cache.new 1000 10) 50 "k" "v") 1051 "k")
    = None.
Proof.
  pose proof (cache_set_then_get (V:=string) 1000 10 [] 50 "k" "v" 1050)
    as [H1 _].
  pose proof (cache_set_then_get (V:=string) 1000 10 [] 50 "k" "v" 1051)
    as [_ H2].
  split.
  - simpl in H1. rewrite H1; [reflexivity | lia].
  - apply H2. lia.
Defined.

(** C4 at a cache of two entries: after [set("a")] and [set("b")] the hit
    [get("a")] returns the value and leaves the object as it was, so the
    insertion of a third key evicts ["a"], the key read last, and keeps
    ["b"]; the expiry time of ["a"] is unchanged by the hit. *)
Theorem cache_get_hit_not_refreshed :
  let c := Cache.set (Cache.set (Cache.new 300000 2) 0 "a" "x") 1 "b" "y" in
  let r := Cache.get c 2 "a" in
  fst r = Some "x"
  ∧ snd r = c
  ∧ Cache.expiresAt <$> (Cache.cache (snd r) !! "a") = Some 300000
  ∧ Cache.order (snd r) = ["a"; "b"]
  ∧ Cache.cache (Cache.set (snd r) 3 "c" "z") !! "a" = None
  ∧ Cache.value <$> (Cache.cache (Cache.set (snd r) 3 "c" "z") !! "b")
      = Some "y".
Proof. vm_compute. repeat split; reflexivity. Qed.

(** ** The rate limiter *)

Section rate_limiter_facts.
Implicit Types (requests : gmap string (list Z)) (h times : list Z).

Lemma filter_keeps_all (P : Z → Prop) `{∀ x, Decision (P x)} h :
  (∀ x, x ∈ h → P x) → filter P h = h.
Proof.
  induction h as [|x r IH]; intros Hall; [done|].
  rewrite filter_cons_True by (apply Hall; left).
  f_equal. apply IH. intros y Hy. apply Hall. by right.
Qed.

Lemma filter_drops_one (P : Z → Prop) `{∀ x, Decision (P x)} h x :
  x ∈ h → ¬ P x → (length (filter P h) < length h)%nat.
Proof.
  induction h as [|y r IH]; intros Hin Hx.
  - by apply elem_of_nil in Hin.
  - apply elem_of_cons in Hin as [<-|Hin].
    + rewrite filter_cons_False by done.
      pose proof (length_filter P r). simpl. lia.
    + specialize (IH Hin Hx). rewrite filter_cons.
      destruct (decide (P y)); simpl; lia.
Qed.

Lemma bounded_checkLimit N W requests now id :
  RateLimiter.bounded N requests →
  RateLimiter.bounded N (snd (RateLimiter.checkLimit requests now id N W)).
Proof.
  intros Hb. unfold RateLimiter.checkLimit. rewrite Z.geb_leb.
  destruct (Z.leb_spec N
    (Z.of_nat (length (filter (fun t => now - t < W)
                         (default [] (requests !! id)))))); [done|].
  simpl. intros id' h'. destruct (decide (id' = id)) as [->|Hne].
  - rewrite lookup_insert_eq. intros [= <-].
    rewrite length_app. simpl. lia.
  - rewrite lookup_insert_ne by done. apply Hb.
Qed.

Lemma bounded_run_checks N W requests calls :
  RateLimiter.bounded N requests →
  RateLimiter.bounded N (RateLimiter.run_checks N W requests calls).
Proof.
  revert requests. induction calls as [|[now id] calls IH]; intros st Hb;
    [done|].
  apply IH. by apply bounded_checkLimit.
Qed.

(** Successive checks of one identifier whose clock values, together with
    the recorded ones, all lie within one window: they are allowed until the
    history holds [N] timestamps, and the next one is denied. *)
Lemma answers_within_window N W id times : ∀ requests t,
  Z.of_nat (length (RateLimiter.history requests id) + length times) = N →
  (∀ a b, a ∈ RateLimiter.history requests id ++ times ++ [t] →
          b ∈ RateLimiter.history requests id ++ times ++ [t] → a - b < W) →
  RateLimiter.answers N W requests id (times ++ [t])
    = replicate (length times) true ++ [false].
Proof.
  induction times as [|a rest IH]; intros st t Hlen Hwin.
  - simpl. unfold RateLimiter.checkLimit.
    fold (RateLimiter.history st id).
    rewrite filter_keeps_all, ?Z.geb_leb.
    + simpl in Hlen.
      destruct (Z.leb_spec N (Z.of_nat (length (RateLimiter.history st id))));
        [done | lia].
    + intros x Hx. apply Hwin; rewrite !elem_of_app.
      * right. right. apply list_elem_of_singleton. done.
      * by left.
  - cbn [app RateLimiter.answers]. unfold RateLimiter.checkLimit.
    fold (RateLimiter.history st id).
    rewrite filter_keeps_all, ?Z.geb_leb.
    + simpl in Hlen.
      destruct (Z.leb_spec N (Z.of_nat (length (RateLimiter.history st id))));
        [lia|].
      cbn [replicate length app]. f_equal.
      apply IH.
      * unfold RateLimiter.history at 1. rewrite lookup_insert_eq. simpl.
        rewrite length_app. simpl. lia.
      * unfold RateLimiter.history. rewrite lookup_insert_eq. simpl.
        fold (RateLimiter.history st id).
        intros x y Hx Hy. apply Hwin.
        -- rewrite <- (assoc_L (++)) in Hx. exact Hx.
        -- rewrite <- (assoc_L (++)) in Hy. exact Hy.
    + intros x Hx. apply Hwin; rewrite !elem_of_app.
      * right. left. left.
      * by left.
Qed.

(** C5: [checkLimit] counts the recorded timestamps [t] of the identifier
    with [now - t < windowMs]; it answers [true] exactly when that count is
    below [maxRequests], and then the stored history becomes those
    timestamps followed by [now], the other identifiers being untouched;
    when it answers [false] nothing is recorded.  So, for a new identifier,
    [N] checks and one more, all within one window, are answered [true] [N]
    times and then [false]; and once [W] has elapsed since a recorded
    timestamp, the check is allowed again. *)
Theorem rate_limit_sliding_window N W id requests now times t calls t0 now2 :
  let recent :=
    filter (fun x => now - x < W) (RateLimiter.history requests id) in
  let r := RateLimiter.checkLimit requests now id N W in
  (fst r = true ↔ Z.of_nat (length recent) < N)
  ∧ (fst r = true →
     RateLimiter.history (snd r) id = recent ++ [now]
     ∧ ∀ id', id' ≠ id → snd r !! id' = requests !! id')
  ∧ (fst r = false → RateLimiter.history (snd r) id
                     = RateLimiter.history requests id)
  ∧ (requests !! id = None → Z.of_nat (length times) = N →
     (∀ a b, a ∈ times ++ [t] → b ∈ times ++ [t] → a - b < W) →
     RateLimiter.answers N W requests id (times ++ [t])
       = replicate (length times) true ++ [false])
  ∧ (t0 ∈ RateLimiter.history (RateLimiter.run_checks N W ∅ calls) id →
     W ≤ now2 - t0 →
     fst (RateLimiter.checkLimit (RateLimiter.run_checks N W ∅ calls)
            now2 id N W) = true).
Proof.
  intros recent r.
  assert (r = if Z.of_nat (length recent) >=? N then (false, requests)
              else (true, <[id := recent ++ [now]]> requests)) as Hr
    by reflexivity.
  clearbody r recent. subst r.
  split; [|split; [|split; [|split]]].
  - rewrite Z.geb_leb.
    destruct (Z.leb_spec N (Z.of_nat (length recent))); simpl;
      split; first [done | lia].
  - destruct (Z.of_nat (length recent) >=? N); simpl; [done|]. intros _.
    split.
    + unfold RateLimiter.history. by rewrite lookup_insert_eq.
    + intros id' Hne. by rewrite lookup_insert_ne.
  - by destruct (Z.of_nat (length recent) >=? N).
  - intros Hnone Hlen Hwin. apply answers_within_window.
    + unfold RateLimiter.history. rewrite Hnone. simpl. lia.
    + unfold RateLimiter.history. rewrite Hnone. simpl. exact Hwin.
  - intros Hin Hold.
    assert (RateLimiter.bounded N (RateLimiter.run_checks N W ∅ calls)) as Hb.
    { apply bounded_run_checks. intros ? ?. by rewrite lookup_empty. }
    unfold RateLimiter.checkLimit.
    set (st := RateLimiter.run_checks N W ∅ calls) in *.
    fold (RateLimiter.history st id).
    assert (Z.of_nat (length (RateLimiter.history st id)) ≤ N) as Hlen.
    { unfold RateLimiter.history in *.
      destruct (st !! id) as [h|] eqn:Hh; [by apply (Hb id)|].
      by apply elem_of_nil in Hin. }
    pose proof (filter_drops_one (fun x => now2 - x < W) _ t0 Hin
                  ltac:(simpl; lia)) as Hlt.
    rewrite Z.geb_leb.
    destruct (Z.leb_spec N (Z.of_nat (length
      (filter (fun x => now2 - x < W) (RateLimiter.history st id)))));
      [lia | done].
Qed.

(** The default configuration on a short window: two requests allowed, the
    third denied, and a request one window later allowed. *)
Lemma rate_limit_sliding_window_witness :
  RateLimiter.answers 2 1000 ∅ "10.0.0.1" [0; 400; 900]
    = [true; true; false]
  ∧ fst (RateLimiter.checkLimit
           (RateLimiter.run_checks 2 1000 ∅
              [(0, "10.0.0.1"); (400, "10.0.0.1"); (900, "10.0.0.1")])
           1000 "10.0.0.1" 2 1000) = true.
Proof.
  pose proof (rate_limit_sliding_window 2 1000 "10.0.0.1" ∅ 0 [0; 400] 900
    [(0, "10.0.0.1"); (400, "10.0.0.1"); (900, "10.0.0.1")] 0 1000)
    as (_ & _ & _ & H4 & H5).
  split.
  - apply H4; [reflexivity | reflexivity |].
    intros a b Ha Hb.
    assert (0 ≤ a ≤ 900 ∧ 0 ≤ b ≤ 900) as [? ?]; [|lia].
    simpl in Ha, Hb. rewrite !elem_of_cons in Ha, Hb.
    split.
    + destruct Ha as [->|[->|[->|Ha]]]; [lia..|by apply elem_of_nil in Ha].
    + destruct Hb as [->|[->|[->|Hb]]]; [lia..|by apply elem_of_nil in Hb].
  - apply H5; [|lia]. vm_compute. left.
Defined.

(** C10: a check answered [false] leaves the whole map as it was; the
    pruned list it computed is dropped. *)
Theorem rate_limit_denied_unchanged requests now id N W :
  fst (RateLimiter.checkLimit requests now id N W) = false →
  snd (RateLimiter.checkLimit requests now id N W) = requests.
Proof.
  unfold RateLimiter.checkLimit. by destruct (_ >=? _).
Qed.

(** A denied check over a history with a timestamp older than the window:
    the old timestamp stays recorded. *)
Lemma rate_limit_denied_unchanged_witness :
  snd (RateLimiter.checkLimit {["10.0.0.1" := [0; 950; 960]]}
         1000 "10.0.0.1" 2 100)
  = {["10.0.0.1" := [0; 950; 960]]}.
Proof.
  apply (rate_limit_denied_unchanged
           {["10.0.0.1" := [0; 950; 960]]} 1000 "10.0.0.1" 2 100).
  reflexivity.
Defined.

End rate_limiter_facts.

(** ** The stage transitions *)

Section stage_facts.
Import Types Async WorkflowTypes Tasks.

Lemma with_title_lookup_ne t (m : gmap string FieldVal) f :
  f ≠ "title" → with_title t m !! f = m !! f.
Proof. intros Hf. destruct t; simpl; [by rewrite lookup_insert_ne|done]. Qed.

Lemma with_title_subseteq t (m : gmap string FieldVal) :
  m !! "title" = None → m ⊆ with_title t m.
Proof. intros Hm. destruct t; simpl; [by apply insert_subseteq|done]. Qed.

(** Looking up a field name that a context does not carry. *)
Ltac absent_field :=
  repeat first
    [ rewrite lookup_insert_ne by done
    | rewrite with_title_lookup_ne by done
    | rewrite lookup_singleton_ne by done ];
  reflexivity.

Lemma fetchHtmlTask_fulfilled w c t o :
  fst (fetchHtmlTask w c) = Settles t (Fulfilled o) →
  f_url o = i_url c.
Proof.
  unfold fetchHtmlTask.
  destruct (pRetry _ _ _ _ _) as [response calls]. simpl.
  destruct response as [t' [resp|e]|]; simpl; [|done..].
  destruct (negb (ok resp)); simpl; [done|].
  destruct (text resp) as [t2 [html|e]|]; simpl; [|done..].
  by intros [= _ <-].
Qed.

(** C7: for each of the five tasks of the crawl workflow and every input
    context at the stage the task expects, the context the task produces
    carries every field of the input with the same value, and at least one
    more; in particular [url] is the same.  The four tasks after the fetch
    always produce one. *)
Theorem stage_fields_accumulate (w : World) (task : Task)
    (ctx : CrawlContext) :
  task ∈ Workflow.tasks (createCrawlWorkflow w) →
  stage ctx = input_stage (name task) →
  (∀ t out, run task ctx = Settles t (Fulfilled out) →
     fields ctx ⊂ fields out ∧ url out = url ctx)
  ∧ (name task ≠ FETCH_HTML →
     ∃ out, run task ctx = Settles 0 (Fulfilled out)).
Proof.
  unfold createCrawlWorkflow. cbn [Workflow.tasks].
  rewrite !elem_of_cons.
  intros [->|[->|[->|[->|[->|Hin]]]]] Hstage;
    [..|by apply elem_of_nil in Hin];
    destruct ctx as [c|c|c|c|c|c|c]; try discriminate Hstage;
    cbn [run name fetchHtml extractMetadata parseDocument cleanDocument
         convertToMarkdown].
  - (* fetch_html *)
    split; [|intros Hne; by destruct Hne].
    intros t out Hrun.
    destruct (fst (fetchHtmlTask w c)) as [t' [o|e]|] eqn:Hf;
      simpl in Hrun; [|done..].
    injection Hrun as _ <-.
    pose proof (fetchHtmlTask_fulfilled w c t' o Hf) as Hu.
    split; [|exact Hu]. cbn [fields]. rewrite Hu.
    eapply strict_trans_r; [apply with_title_subseteq|apply insert_subset];
      absent_field.
  - (* extract_metadata *)
    split; [|intros _; eexists; reflexivity].
    intros t out [= _ <-]. split; [|reflexivity].
    cbn [fields m_metadata m_html m_title m_url].
    apply insert_subset. absent_field.
  - (* parse_document *)
    split; [|intros _; eexists; reflexivity].
    intros t out [= _ <-]. split; [|reflexivity].
    cbn [fields p_metadata p_html p_title p_url p_document].
    apply insert_subset. absent_field.
  - (* clean_document *)
    split; [|intros _; eexists; reflexivity].
    intros t out [= _ <-]. split; [|reflexivity].
    cbn [fields c_metadata c_html c_title c_url c_document c_cleanedDocument].
    apply insert_subset. absent_field.
  - (* convert_to_markdown *)
    split; [|intros _; eexists; reflexivity].
    intros t out [= _ <-]. split; [|reflexivity].
    cbn [fields d_metadata d_html d_title d_url d_document d_cleanedDocument
         d_markdown].
    apply insert_subset. absent_field.
Qed.

End stage_facts.

(** The clean stage on the parsed context of the sample page. *)
Lemma stage_fields_accumulate_witness :
  Types.fields (Types.Parsed Demo.parsed)
  ⊂ Types.fields
      (Types.Cleaned
         {| Types.c_url := "https://example.com";
            Types.c_html := Demo.page;
            Types.c_title := Some "T";
            Types.c_metadata := {["title" := Some "T"]};
            Types.c_document := "<p>Hi</p>";
            Types.c_cleanedDocument := "<p>Hi</p>" |}).
Proof.
  refine (proj1 (proj1 (stage_fields_accumulate Demo.world
            (Tasks.cleanDocument Demo.world) (Types.Parsed Demo.parsed)
            _ _) 0 _ _)).
  - unfold Tasks.createCrawlWorkflow. simpl.
    do 3 apply list_elem_of_further. apply list_elem_of_here.
  - reflexivity.
  - reflexivity.
Defined.

(** ** The promise utilities *)

Section async_facts.
Import Types Async.
Context {A : Type}.
Implicit Types (p : Promise A) (fs : list (A → Promise A)).

Lemma bind_resolve {B} (a : A) (f : A → Promise B) : bind (resolve a) f = f a.
Proof. unfold resolve, bind, delay. by destruct (f a). Qed.


Lemma pipe_pending fs : fold_left bind fs (@Pending A) = Pending.
Proof. induction fs as [|f fs IH]; [done|]. simpl. apply IH. Qed.

Lemma pTimeout_expired p ms :
  0 < ms → unsettled_at ms p →
  pTimeout p ms = Settles ms (Rejected (TimeoutError ms)).
Proof.
  intros Hms Hp. unfold pTimeout.
  destruct (Z.leb_spec ms 0); [lia|].
  destruct p as [t s|]; [|done]. simpl in Hp.
  destruct (Z.ltb_spec t ms); [lia | done].
Qed.

Lemma pTimeout_in_time t s ms :
  0 < ms → t < ms → pTimeout (Settles t s) ms = Settles (A:=A) t s.
Proof.
  intros Hms Ht. unfold pTimeout.
  destruct (Z.leb_spec ms 0); [lia|].
  destruct (Z.ltb_spec t ms); [done | lia].
Qed.

(** When the calls before the [k]-th after [a] are rejected with errors
    [p-retry] retries, and that call is fulfilled, the loop ends with its
    value and has made no further call. *)
Lemma pRetry_first_response retryable backoff (input : nat → Promise A) k :
  ∀ a r t x,
  (k ≤ r)%nat →
  (∀ j, (a ≤ j < a + k)%nat →
        ∃ tj e, input j = Settles tj (Rejected e) ∧ retryable e = true) →
  input (a + k)%nat = Settles t (Fulfilled x) →
  ∃ T, pRetry retryable backoff input a r
       = (Settles T (Fulfilled x), S (a + k)).
Proof.
  induction k as [|k IH]; intros a r t x Hk Hrej Hok.
  - rewrite Nat.add_0_r in *. exists t.
    destruct r; simpl; by rewrite Hok.
  - destruct r as [|r]; [lia|].
    destruct (Hrej a ltac:(lia)) as (ta & e & Ha & He).
    destruct (IH (S a) r t x ltac:(lia)) as [T HT].
    + intros j Hj. apply Hrej. lia.
    + by replace (S a + k)%nat with (a + S k)%nat by lia.
    + simpl. rewrite Ha, He, HT. simpl.
      eexists. f_equal. f_equal. lia.
Qed.

End async_facts.

(** ** The fetch stage and the deadline *)

Section pipeline_facts.
Import Types Async WorkflowTypes Tasks.

(** The [Error] that [fetchHtmlTask] throws on a response that is not
    [ok]. *)
Lemma fetch_error_message (response : Response) :
  Errors.getErrorMessage
    (fetch_failed (status response) (statusText response) EmptyString)
  = "Fetch failed: " +:+ pretty (status response) +:+ " "
    +:+ statusText response.
Proof. reflexivity. Qed.

(** A rejection of the first task is the rejection of the whole run of the
    crawl workflow, when it comes before the deadline. *)
Lemma crawl_run_fetch_rejected w url T err calls ms :
  fetchHtmlTask w {| i_url := url |} = (Settles T (Rejected err), calls) →
  0 < ms → T < ms →
  Workflow.run (createCrawlWorkflow w) (Initial {| i_url := url |})
    (Some {| WorkflowTypes.timeoutMs := Some ms |})
  = Settles T (Rejected err).
Proof.
  intros Hf Hms HT. unfold Workflow.run, createCrawlWorkflow, pPipe.
  cbn [Workflow.tasks map fold_left run fetchHtml]. rewrite bind_resolve, Hf.
  cbn [fst bind]. by apply pTimeout_in_time.
Qed.

(** C8, the claim as stated, fails at a 404 answer: the stage rejects with
    a plain [Error], not with an object of the [fetch_failed] variant, and
    the service reports the variant [unknown]. *)
Lemma fetch_failed_variant_not_produced :
  let ctx := {| i_url := "https://example.com/missing" |} in
  net Demo.world (i_url ctx) 0
    = Settles 80 (Fulfilled {| status := 404; statusText := "Not Found";
                               text := resolve EmptyString |})
  ∧ fetchHtmlTask Demo.world ctx
    = (Settles 80 (Rejected (ErrorObj "Error" "Fetch failed: 404 Not Found")),
       1%nat)
  ∧ ¬ (∃ T statusText url,
         fst (fetchHtmlTask Demo.world ctx)
         = Settles T
             (Rejected (CrawlErrorObj (fetch_failed 404 statusText url))))
  ∧ ¬ (∃ T statusText url,
         CrawlService.crawlUrl (Index.crawlService Demo.world) (i_url ctx)
         = Settles T (Fulfilled (Failure (fetch_failed 404 statusText url)))).
Proof.
  intros ctx.
  assert (fetchHtmlTask Demo.world ctx
    = (Settles 80 (Rejected (ErrorObj "Error" "Fetch failed: 404 Not Found")),
       1%nat)) as Hf by (vm_compute; reflexivity).
  split; [reflexivity|]. split; [exact Hf|]. split.
  - rewrite Hf. intros (T & st & u & H). discriminate H.
  - unfold CrawlService.crawlUrl. cbn [Index.crawlService CrawlService.workflow
      CrawlService.timeoutMs].
    rewrite (crawl_run_fetch_rejected _ _ _ _ _ _ Hf)
      by (unfold CrawlService.DEFAULT_TIMEOUT_MS; lia).
    intros (T & st & u & H). discriminate H.
Qed.

(** C8, amended: when a call of [fetch] is answered, the calls before it
    having failed with errors that are retried, and the answer is not in the
    range 200-299, then no further call is made and the stage rejects with
    the plain [Error] whose message is ["Fetch failed: <status>
    <statusText>"]; [CrawlService] returns it as the variant [unknown] with
    that message. *)
Theorem fetch_non_ok_terminal (w : World) (url : string) (i : nat) (t : Z)
    (response : Response) :
  (i ≤ RETRIES)%nat →
  (∀ j, (j < i)%nat →
        ∃ tj e, net w url j = Settles tj (Rejected e)
                ∧ retryable w e = true) →
  net w url i = Settles t (Fulfilled response) →
  ok response = false →
  let err :=
    ErrorObj "Error"
      ("Fetch failed: " +:+ pretty (status response) +:+ " "
       +:+ statusText response) in
  ∃ T,
    fetchHtmlTask w {| i_url := url |} = (Settles T (Rejected err), S i)
    ∧ (T < CrawlService.DEFAULT_TIMEOUT_MS →
       CrawlService.crawlUrl (Index.crawlService w) url
       = Settles T
           (Fulfilled
              (Failure
                 (unknown
                    ("Fetch failed: " +:+ pretty (status response) +:+ " "
                     +:+ statusText response)
                    (Some err))))).
Proof.
  intros Hi Hrej Hresp Hok err.
  destruct (pRetry_first_response (retryable w) (backoff w) (net w url)
              i 0%nat RETRIES t response Hi) as [T HT].
  { intros j Hj. apply Hrej. lia. }
  { exact Hresp. }
  exists T.
  assert (fetchHtmlTask w {| i_url := url |}
          = (Settles T (Rejected err), S i)) as Hf.
  { unfold fetchHtmlTask. cbn [i_url]. rewrite HT.
    cbn [bind]. rewrite Hok. cbn [negb reject delay].
    by rewrite Z.add_0_r. }
  split; [exact Hf|]. intros HTlt.
  unfold CrawlService.crawlUrl.
  cbn [Index.crawlService CrawlService.workflow CrawlService.timeoutMs].
  rewrite (crawl_run_fetch_rejected _ _ _ _ _ _ Hf)
    by (unfold CrawlService.DEFAULT_TIMEOUT_MS in *; lia).
  reflexivity.
Qed.

(** The host that fails once and then answers 503: two calls, no third. *)
Lemma fetch_non_ok_terminal_witness :
  ∃ T, fetchHtmlTask Demo.world {| i_url := "https://flaky.example" |}
       = (Settles T
            (Rejected (ErrorObj "Error"
                         "Fetch failed: 503 Service Unavailable")),
          2%nat).
Proof.
  destruct (fetch_non_ok_terminal Demo.world "https://flaky.example" 1 50
              {| status := 503; statusText := "Service Unavailable";
                 text := resolve EmptyString |}) as [T [H _]].
  - unfold RETRIES. lia.
  - intros j Hj. assert (j = 0%nat) as -> by lia.
    exists 30, (ErrorObj "TypeError" "fetch failed"). split; reflexivity.
  - reflexivity.
  - reflexivity.
  - exists T. exact H.
Defined.

End pipeline_facts.

Section deadline_facts.
Import Types Async WorkflowTypes Tasks.



(** What [Workflow.run] gives when the chain is unsettled at the
    deadline. *)
Lemma run_workflow_expired (w : Workflow.Workflow) initial ms :
  0 < ms →
  unsettled_at ms (pPipe (map run (Workflow.tasks w)) initial) →
  Workflow.run w initial (Some {| WorkflowTypes.timeoutMs := Some ms |})
  = Settles ms (Rejected (TimeoutError ms)).
Proof.
  intros Hms Hp. unfold Workflow.run.
  destruct (map run (Workflow.tasks w)) as [|f fs] eqn:Hfs.
  - cbn in Hp. lia.
  - by apply pTimeout_expired.
Qed.




End deadline_facts.

(** ** The caching service *)

Section caching_facts.
Import Types Async WorkflowTypes.
Implicit Types (cache : Cache.CacheService CrawlResultData).

(** After a miss the key is not in the map: it was not there, or the
    expired entry has just been deleted. *)
Lemma get_miss_absent {V} (c : Cache.CacheService V) now key :
  fst (Cache.get c now key) = None →
  Cache.cache (snd (Cache.get c now key)) !! key = None.
Proof.
  unfold Cache.get. destruct (Cache.cache c !! key) as [e|] eqn:He; [|done].
  destruct (now >? Cache.expiresAt e); [|done]. intros _.
  unfold Cache.delete. rewrite He. simpl. apply lookup_delete_eq.
Qed.

(** The service returns a success only for a run that ended with a
    [Completed] context. *)
Lemma crawlUrl_success svc url t data :
  CrawlService.crawlUrl svc url = Settles t (Fulfilled (Success data)) →
  ∃ c, Workflow.run (CrawlService.workflow svc) (Initial {| i_url := url |})
         (Some {| timeoutMs := Some (CrawlService.timeoutMs svc) |})
       = Settles t (Fulfilled (Completed c))
       ∧ data = CrawlService.result_data c.
Proof.
  unfold CrawlService.crawlUrl.
  destruct (Workflow.run _ _ _) as [t' [ctx|e]|]; [|done..].
  destruct ctx; try done. intros [= -> <-]. eauto.
Qed.


Lemma cached_miss_entry inner cache now url e :
  fst (Cache.get cache now url) = None →
  Cache.cache (snd (CachedCrawlService.crawlUrl inner cache now url)) !! url
    = Some e →
  ∃ t, inner url = Settles t (Fulfilled (Success (Cache.value e)))
       ∧ Cache.expiresAt e = now + t + Cache.ttlMs cache.
Proof.
  intros Hmiss. pose proof (get_miss_absent cache now url Hmiss) as Habs.
  unfold CachedCrawlService.crawlUrl.
  destruct (Cache.get cache now url) as [cached cache1] eqn:Hget.
  simpl in Hmiss, Habs. subst cached.
  assert (Cache.ttlMs cache1 = Cache.ttlMs cache) as Httl.
  { pose proof (params_get cache now url) as [H _]. by rewrite Hget in H. }
  destruct (inner url) as [t [[data|err]|err]|]; cbn [snd];
    try (rewrite Habs; done).
  rewrite set_lookup_key, Httl. intros [= <-]. simpl. eauto.
Qed.

(** C6: when the lookup misses, so that the pipeline runs, and the run does
    not end with a [Completed] context (a run whose chain settles only
    after the positive deadline, or never, is one such), the call returns
    no success and leaves no entry for the URL in the cache; an entry found
    for the URL after a miss holds the data of a run that ended with a
    [Completed] context. *)
Theorem failed_run_not_cached (svc : CrawlService.CrawlService) cache
    (now : Z) (url : string) :
  let outcome :=
    Workflow.run (CrawlService.workflow svc) (Initial {| i_url := url |})
      (Some {| timeoutMs := Some (CrawlService.timeoutMs svc) |}) in
  let r :=
    CachedCrawlService.crawlUrl (CrawlService.crawlUrl svc) cache now url in
  fst (Cache.get cache now url) = None →
  ((∀ t c, outcome ≠ Settles t (Fulfilled (Completed c))) →
   Cache.cache (snd r) !! url = None
   ∧ ∀ t res, fst r = Settles t (Fulfilled res) → success res = false)
  ∧ (0 < CrawlService.timeoutMs svc →
     unsettled_at (CrawlService.timeoutMs svc)
       (pPipe (map run (Workflow.tasks (CrawlService.workflow svc)))
          (Initial {| i_url := url |})) →
     Cache.cache (snd r) !! url = None)
  ∧ (∀ e, Cache.cache (snd r) !! url = Some e →
     ∃ t c, outcome = Settles t (Fulfilled (Completed c))
            ∧ Cache.value e = CrawlService.result_data c
            ∧ Cache.expiresAt e = now + t + Cache.ttlMs cache).
Proof.
  intros outcome r Hmiss.
  assert (∀ e, Cache.cache (snd r) !! url = Some e →
     ∃ t c, outcome = Settles t (Fulfilled (Completed c))
            ∧ Cache.value e = CrawlService.result_data c
            ∧ Cache.expiresAt e = now + t + Cache.ttlMs cache) as Hstored.
  { intros e He.
    destruct (cached_miss_entry _ cache now url e Hmiss He) as (t & Hin & Hexp).
    destruct (crawlUrl_success svc url t _ Hin) as (c & Hc & Hd).
    exists t, c. done. }
  assert ((∀ t c, outcome ≠ Settles t (Fulfilled (Completed c))) →
          Cache.cache (snd r) !! url = None) as Hnone.
  { intros Hfail. destruct (Cache.cache (snd r) !! url) as [e|] eqn:He; [|done].
    destruct (Hstored e eq_refl) as (t & c & Hc & _). by destruct (Hfail t c). }
  split; [|split; [|exact Hstored]].
  - intros Hfail. split; [by apply Hnone|].
    intros t res Hres. destruct res as [data|e]; [|done]. exfalso.
    subst r. unfold CachedCrawlService.crawlUrl in Hres.
    destruct (Cache.get cache now url) as [cached cache1].
    simpl in Hmiss. subst cached.
    destruct (CrawlService.crawlUrl svc url) as [t' [[d|e]|e]|] eqn:Hin;
      simpl in Hres; try discriminate Hres.
    injection Hres as -> ->.
    destruct (crawlUrl_success svc url t data Hin) as (c & Hc & _).
    by apply (Hfail t c).
  - intros Hms Hp. apply Hnone. intros t c Hc.
    subst outcome. rewrite run_workflow_expired in Hc by done.
    discriminate Hc.
Qed.

(** The host that answers after the deadline, on an empty cache. *)
Lemma failed_run_not_cached_witness :
  Cache.cache
    (snd (CachedCrawlService.crawlUrl
            (CrawlService.crawlUrl (Index.crawlService Demo.world))
            (Cache.new 300000 100) 0 "https://slow.example"))
  !! "https://slow.example" = None.
Proof.
  refine (proj1 (proj2 (failed_run_not_cached (Index.crawlService Demo.world)
            (Cache.new 300000 100) 0 "https://slow.example" _)) _ _).
  - reflexivity.
  - simpl. unfold CrawlService.DEFAULT_TIMEOUT_MS. lia.
  - vm_compute. reflexivity.
Defined.

End caching_facts.

(** ** The HTTP boundary *)

Section api_facts.
Import Types Async.




End api_facts.

(** ** The end-to-end example: the sample page crawled through the wired
    services, then served again from the cache. *)

Example crawl_sample_page :
  CrawlService.crawlUrl (Index.crawlService Demo.world) "https://example.com"
  = Async.Settles 120
      (Async.Fulfilled
         (Types.Success
            {| Types.markdown := "Hi"; Types.title := Some "T";
               Types.metadata := Some {["title" := Some "T"]} |})).
Proof. vm_compute. reflexivity. Qed.

Example crawl_sample_page_cached :
  let first :=
    Index.app_post_crawl Demo.world (Cache.new 300000 100) 0
      (Index.Valid "https://example.com") in
  let second :=
    Index.app_post_crawl Demo.world (snd first) 5000
      (Index.Valid "https://example.com") in
  Index.response_status (fst first) = Some 200
  ∧ Cache.order (snd first) = ["https://example.com"]
  ∧ fst second
    = Async.Settles 0
        (Async.Fulfilled
           {| Errors.http_status := 200;
              Errors.payload :=
                Errors.ResultJson
                  (Types.Success
                     {| Types.markdown := "Hi"; Types.title := Some "T";
                        Types.metadata := Some {["title" := Some "T"]} |}) |}).
Proof. vm_compute. repeat split; reflexivity. Qed.

(** * Further properties of the code *)

(** ** [CacheService]: what every reachable cache satisfies *)

Section cache_more.
Context {V : Type}.
Implicit Types (c : Cache.CacheService V).

(** X1: after any sequence of [get]/[set]/[delete] calls on a new cache,
    the order array has no duplicates and holds exactly the keys of the
    map, so [Map.size] is its length; the two constructor parameters are
    unchanged. *)
Theorem cache_representation_invariant ttl M (ops : list (Cache.op V)) :
  let c := Cache.run (Cache.new ttl M) ops in
  NoDup (Cache.order c)
  ∧ (∀ k, k ∈ Cache.order c ↔ is_Some (Cache.cache c !! k))
  ∧ Cache.entries c = length (Cache.order c)
  ∧ Cache.ttlMs c = ttl ∧ Cache.maxSize c = M.
Proof.
  intros c.
  assert (Cache.wf c) as Hwf by apply wf_run, wf_new.
  destruct (params_run (Cache.new ttl M) ops) as [Ht Hm].
  split; [apply Hwf|]. split; [apply Hwf|]. split; [by apply wf_entries|].
  split; [exact Ht | exact Hm].
Qed.

Lemma length_set_any c now key v :
  Cache.wf c →
  Z.of_nat (length (Cache.order c)) ≤ Z.max (Cache.maxSize c) 1 →
  Z.of_nat (length (Cache.order (Cache.set c now key v)))
  ≤ Z.max (Cache.maxSize c) 1.
Proof.
  intros [Hnd Hdom] Hlen.
  destruct (Cache.cache c !! key) as [e|] eqn:He.
  - unfold Cache.set. simpl. rewrite length_app. simpl.
    rewrite He, bool_decide_eq_true_2 by eauto. simpl.
    assert (key ∈ Cache.order c) as Hin by (apply Hdom; eauto).
    pose proof (splice_first_length key _ Hin). lia.
  - assert (key ∉ Cache.order c) as Hnin.
    { intros Hin. apply Hdom in Hin as [? ?]. congruence. }
    rewrite set_fresh_order by done. rewrite length_app. simpl.
    rewrite Z.geb_leb.
    destruct (Z.leb_spec (Cache.maxSize c)
                (Z.of_nat (length (Cache.order c)))).
    + destruct (Cache.order c); simpl in *; lia.
    + lia.
Qed.

(** X2: whatever the maximum size [M] the cache was constructed with, zero
    and negative ones included, it never holds more than [max M 1]
    entries. *)
Theorem cache_size_bound_any_max ttl M (ops : list (Cache.op V)) :
  Z.of_nat (Cache.entries (Cache.run (Cache.new ttl M) ops)) ≤ Z.max M 1.
Proof.
  rewrite wf_entries by apply wf_run, wf_new.
  assert (∀ c, Cache.wf c →
            Z.of_nat (length (Cache.order c)) ≤ Z.max (Cache.maxSize c) 1 →
            Z.of_nat (length (Cache.order (Cache.run c ops)))
            ≤ Z.max (Cache.maxSize c) 1) as Hrun.
  { induction ops as [|o ops IH]; intros c Hwf Hlen; [done|]. simpl.
    destruct (params_step c o) as [_ Hmax]. rewrite <- Hmax.
    apply IH; [by apply wf_step|]. rewrite Hmax.
    destruct o as [now k|now k v|k]; unfold Cache.step.
    - pose proof (length_get c now k). lia.
    - by apply length_set_any.
    - pose proof (length_delete c k). lia. }
  apply (Hrun (Cache.new ttl M)); [apply wf_new | simpl; lia].
Qed.

(** X3: on a reachable cache [delete(key)] answers whether the key was
    stored; afterwards the key is in neither the map nor the order array,
    every other entry is as before, the order array is the one before with
    the key taken out, the other keys in their places, and deleting again
    answers [false] and changes nothing. *)
Theorem cache_delete_removes_key ttl M (ops : list (Cache.op V)) key :
  let c := Cache.run (Cache.new ttl M) ops in
  let c' := snd (Cache.delete c key) in
  fst (Cache.delete c key) = bool_decide (is_Some (Cache.cache c !! key))
  ∧ Cache.cache c' !! key = None
  ∧ (key ∉ Cache.order c')
  ∧ (∀ k, k ≠ key → Cache.cache c' !! k = Cache.cache c !! k)
  ∧ (∀ k, k ≠ key → (k ∈ Cache.order c' ↔ k ∈ Cache.order c))
  ∧ Cache.delete c' key = (false, c')
  ∧ Cache.order c' = Cache.splice_first key (Cache.order c)
  ∧ Cache.order c' = filter (λ k, k ≠ key) (Cache.order c)
  ∧ Cache.ttlMs c' = ttl ∧ Cache.maxSize c' = M.
Proof.
  intros c c'.
  assert (Cache.wf c) as Hwf by apply wf_run, wf_new.
  assert (Cache.wf c') as Hwf' by apply wf_delete, Hwf.
  assert (Cache.cache c' !! key = None) as Hnone.
  { subst c'. unfold Cache.delete.
    destruct (Cache.cache c !! key) eqn:He; simpl; [|done].
    apply lookup_delete_eq. }
  assert (∀ k, k ≠ key → Cache.cache c' !! k = Cache.cache c !! k) as Hother.
  { intros k Hk. subst c'. unfold Cache.delete.
    destruct (Cache.cache c !! key); simpl; [|done].
    by rewrite lookup_delete_ne. }
  assert (Cache.order c' = Cache.splice_first key (Cache.order c)) as Hord.
  { subst c'. unfold Cache.delete.
    destruct (Cache.cache c !! key) eqn:He; simpl; [done|].
    symmetry. apply splice_first_notin.
    intros Hin. apply Hwf in Hin as [? ?]. congruence. }
  split; [|split; [done|split; [|split; [done|split; [|split;
    [|split; [done|split; [|split]]]]]]]].
  - unfold Cache.delete. destruct (Cache.cache c !! key) eqn:He; cbn [fst].
    + by rewrite bool_decide_eq_true_2 by eauto.
    + by rewrite bool_decide_eq_false_2 by (intros [? ?]; done).
  - intros Hin. apply Hwf' in Hin as [? ?]. congruence.
  - intros k Hk. destruct Hwf as [_ Hd], Hwf' as [_ Hd'].
    by rewrite Hd, Hd', Hother.
  - unfold Cache.delete at 1. by rewrite Hnone.
  - rewrite Hord. apply splice_first_filter, Hwf.
  - transitivity (Cache.ttlMs c); [apply params_delete|].
    apply (params_run (Cache.new ttl M) ops).
  - transitivity (Cache.maxSize c); [apply params_delete|].
    apply (params_run (Cache.new ttl M) ops).
Qed.

(** X4: [set] on a key that is stored evicts nothing, even in a full cache:
    every other entry is as before, the number of entries is the same, the
    key becomes the last of the order array, and its entry holds the new
    value and expires [ttlMs] after the call. *)
Theorem cache_set_existing_refreshes ttl M (ops : list (Cache.op V))
    now key v :
  let c := Cache.run (Cache.new ttl M) ops in
  let c' := Cache.set c now key v in
  is_Some (Cache.cache c !! key) →
  Cache.cache c' !! key
    = Some {| Cache.value := v; Cache.expiresAt := now + ttl |}
  ∧ (∀ k, k ≠ key → Cache.cache c' !! k = Cache.cache c !! k)
  ∧ Cache.order c' = Cache.splice_first key (Cache.order c) ++ [key]
  ∧ Cache.entries c' = Cache.entries c.
Proof.
  intros c c' Hin.
  assert (Cache.wf c) as Hwf by apply wf_run, wf_new.
  assert (Cache.ttlMs c = ttl) as Httl
    by apply (params_run (Cache.new ttl M) ops).
  assert (Cache.order c' = Cache.splice_first key (Cache.order c) ++ [key])
    as Hord.
  { subst c'. unfold Cache.set. simpl.
    by rewrite bool_decide_eq_true_2 by done. }
  split; [|split; [|split; [done|]]].
  - subst c'. by rewrite set_lookup_key, Httl.
  - intros k Hk. subst c'. unfold Cache.set. simpl.
    rewrite bool_decide_eq_true_2 by done. simpl.
    by rewrite lookup_insert_ne.
  - rewrite !wf_entries by (done || by apply wf_set).
    rewrite Hord, length_app. simpl.
    assert (key ∈ Cache.order c) as Hk by (by apply Hwf).
    pose proof (splice_first_length key _ Hk). lia.
Qed.

(** X5: [set(key)] never changes the entry of another key, and removes at
    most one: the first of the order array, and that only when [key] is
    not stored and the array has at least [maxSize] elements. *)
Theorem cache_set_evicts_only_oldest ttl M (ops : list (Cache.op V))
    now key v k e :
  let c := Cache.run (Cache.new ttl M) ops in
  let c' := Cache.set c now key v in
  k ≠ key →
  Cache.cache c !! k = Some e →
  Cache.cache c' !! k = Some e
  ∨ (Cache.cache c' !! k = None
     ∧ head (Cache.order c) = Some k
     ∧ Cache.cache c !! key = None
     ∧ M ≤ Z.of_nat (length (Cache.order c))).
Proof.
  intros c c' Hk He.
  assert (Cache.wf c) as Hwf by apply wf_run, wf_new.
  assert (Cache.maxSize c = M) as HM
    by apply (params_run (Cache.new ttl M) ops).
  destruct (Cache.cache c !! key) as [e0|] eqn:Hkey.
  - left. subst c'. unfold Cache.set. simpl.
    rewrite Hkey, bool_decide_eq_true_2 by eauto. simpl.
    by rewrite lookup_insert_ne.
  - assert (key ∉ Cache.order c) as Hnin.
    { intros Hin. apply Hwf in Hin as [? ?]. congruence. }
    subst c'. rewrite set_fresh_lookup by done.
    rewrite decide_False by done. rewrite HM, Z.geb_leb.
    destruct (Z.leb_spec M (Z.of_nat (length (Cache.order c)))); [|by left].
    destruct (Cache.order c) as [|o r] eqn:Ho; [by left|].
    case_decide as Hko; [|by left].
    right. subst o. done.
Qed.

(** X6: [get(key)] never changes the entry of another key.  It returns a
    value exactly when the key is stored with an expiry time not before
    the clock, and then, as on a key that is not stored, the cache is left
    as it was; on an expired entry it returns nothing and the cache holds
    one entry less. *)
Theorem cache_get_effect ttl M (ops : list (Cache.op V)) now key :
  let c := Cache.run (Cache.new ttl M) ops in
  let r := Cache.get c now key in
  (∀ k, k ≠ key → Cache.cache (snd r) !! k = Cache.cache c !! k)
  ∧ (∀ v, fst r = Some v ↔
          ∃ e, Cache.cache c !! key = Some e ∧ Cache.value e = v
               ∧ now ≤ Cache.expiresAt e)
  ∧ (Cache.cache c !! key = None ∨ is_Some (fst r) → snd r = c)
  ∧ (∀ e, Cache.cache c !! key = Some e → Cache.expiresAt e < now →
          fst r = None ∧ S (Cache.entries (snd r)) = Cache.entries c).
Proof.
  intros c r.
  assert (Cache.wf c) as Hwf by apply wf_run, wf_new.
  subst r. unfold Cache.get.
  destruct (Cache.cache c !! key) as [e|] eqn:He.
  - rewrite Z.gtb_ltb.
    destruct (Z.ltb_spec (Cache.expiresAt e) now) as [Hlt|Hge].
    + split; [|split; [|split]].
      * intros k Hk. unfold Cache.delete. rewrite He. simpl.
        by rewrite lookup_delete_ne.
      * intros v. split; [done|]. intros (e' & [= <-] & _ & ?). lia.
      * intros [?|[? ?]]; done.
      * intros e' [= <-] _. split; [done|].
        rewrite !wf_entries by (done || by apply wf_delete).
        unfold Cache.delete. rewrite He. simpl.
        apply splice_first_length, Hwf. eauto.
    + split; [done|]. split; [|split; [done|]].
      * intros v. simpl. split.
        -- intros [= <-]. eauto.
        -- intros (e' & [= <-] & <- & _). done.
      * intros e' [= <-] ?. lia.
  - split; [done|]. split; [|split; [done|done]].
    intros v. split; [done|]. intros (e & ? & _). done.
Qed.

End cache_more.

(** A full cache of two entries on which a stored key is set again. *)
Lemma cache_set_existing_refreshes_witness :
  Cache.order
    (Cache.set
       (Cache.run (Cache.new 1000 2)
          [Cache.OpSet 0 "a" "x"; Cache.OpSet 1 "b" "y"])
       5 "a" "z")
  = ["b"; "a"].
Proof.
  refine (proj1 (proj2 (proj2 (cache_set_existing_refreshes (V:=string)
            1000 2 [Cache.OpSet 0 "a" "x"; Cache.OpSet 1 "b" "y"]
            5 "a" "z" _)))).
  vm_compute. eauto.
Defined.

(** The full cache of two entries in which a third key evicts the first. *)
Lemma cache_set_evicts_only_oldest_witness :
  Cache.cache
    (Cache.set
       (Cache.run (Cache.new 1000 2)
          [Cache.OpSet 0 "a" "x"; Cache.OpSet 1 "b" "y"])
       5 "c" "z") !! "b"
  = Some {| Cache.value := "y"; Cache.expiresAt := 1001 |}
  ∨ (Cache.cache
       (Cache.set
          (Cache.run (Cache.new 1000 2)
             [Cache.OpSet 0 "a" "x"; Cache.OpSet 1 "b" "y"])
          5 "c" "z") !! "b" = None
     ∧ head (Cache.order
               (Cache.run (Cache.new 1000 2)
                  [Cache.OpSet 0 "a" "x"; Cache.OpSet 1 "b" "y"]))
       = Some "b"
     ∧ Cache.cache
         (Cache.run (Cache.new 1000 2)
            [Cache.OpSet 0 "a" "x"; Cache.OpSet 1 "b" "y"]) !! "c" = None
     ∧ 2 ≤ Z.of_nat
             (length
                (Cache.order
                   (Cache.run (Cache.new 1000 2)
                      [Cache.OpSet 0 "a" "x"; Cache.OpSet 1 "b" "y"])))).
Proof.
  apply (cache_set_evicts_only_oldest (V:=string) 1000 2
           [Cache.OpSet 0 "a" "x"; Cache.OpSet 1 "b" "y"] 5 "c" "z" "b"
           {| Cache.value := "y"; Cache.expiresAt := 1001 |}).
  - discriminate.
  - vm_compute. reflexivity.
Defined.

(** Deleting a stored key, then once more. *)
Lemma cache_delete_removes_key_witness :
  Cache.delete
    (Cache.run (Cache.new 1000 2)
       [Cache.OpSet 0 "a" "x"; Cache.OpSet 1 "b" "y"]) "a"
  = (true, Cache.run (Cache.new 1000 2) [Cache.OpSet 1 "b" "y"])
  ∧ Cache.delete (Cache.run (Cache.new 1000 2) [Cache.OpSet 1 "b" "y"]) "a"
    = (false, Cache.run (Cache.new 1000 2) [Cache.OpSet 1 "b" "y"]).
Proof.
  pose proof (cache_delete_removes_key (V:=string) 1000 2
                [Cache.OpSet 0 "a" "x"; Cache.OpSet 1 "b" "y"] "a")
    as (_ & _ & _ & _ & _ & H & _).
  split; [vm_compute; reflexivity | exact H].
Defined.

(** An entry read after its expiry time. *)
Lemma cache_get_effect_witness :
  fst (Cache.get (Cache.run (Cache.new 1000 2) [Cache.OpSet 0 "a" "x"])
         1001 "a") = None
  ∧ S (Cache.entries
         (snd (Cache.get
                 (Cache.run (Cache.new 1000 2) [Cache.OpSet 0 "a" "x"])
                 1001 "a")))
    = Cache.entries (Cache.run (Cache.new 1000 2) [Cache.OpSet 0 "a" "x"]).
Proof.
  pose proof (cache_get_effect (V:=string) 1000 2 [Cache.OpSet 0 "a" "x"]
                1001 "a") as (_ & _ & _ & H).
  apply (H {| Cache.value := "x"; Cache.expiresAt := 1000 |}).
  - vm_compute. reflexivity.
  - simpl. lia.
Defined.

(** ** [RateLimiter] and the rate-limit middleware *)

Section rate_limiter_more.
Implicit Types (requests : gmap string (list Z)).

Lemma checkLimit_other requests now id id' N W :
  id' ≠ id →
  RateLimiter.history
    (snd (RateLimiter.checkLimit requests now id' N W)) id
  = RateLimiter.history requests id.
Proof.
  intros Hne. unfold RateLimiter.checkLimit.
  destruct (_ >=? _); simpl; [done|].
  unfold RateLimiter.history. by rewrite lookup_insert_ne.
Qed.

Lemma checkLimit_same st1 st2 now id N W :
  RateLimiter.history st1 id = RateLimiter.history st2 id →
  fst (RateLimiter.checkLimit st1 now id N W)
  = fst (RateLimiter.checkLimit st2 now id N W)
  ∧ RateLimiter.history (snd (RateLimiter.checkLimit st1 now id N W)) id
    = RateLimiter.history (snd (RateLimiter.checkLimit st2 now id N W)) id.
Proof.
  intros Hh. unfold RateLimiter.checkLimit.
  fold (RateLimiter.history st1 id). fold (RateLimiter.history st2 id).
  rewrite Hh. destruct (_ >=? _); simpl; [done|].
  unfold RateLimiter.history. by rewrite !lookup_insert_eq.
Qed.

Lemma run_checks_own_calls N W id calls : ∀ st1 st2,
  RateLimiter.history st1 id = RateLimiter.history st2 id →
  RateLimiter.history (RateLimiter.run_checks N W st1 calls) id
  = RateLimiter.history
      (RateLimiter.run_checks N W st2
         (filter (fun call => snd call = id) calls)) id.
Proof.
  induction calls as [|[now id'] calls IH]; intros st1 st2 Hh; [done|].
  destruct (decide (id' = id)) as [->|Hne].
  - rewrite filter_cons_True by done. simpl. apply IH.
    by apply checkLimit_same.
  - rewrite filter_cons_False by done. simpl. apply IH.
    by rewrite checkLimit_other.
Qed.

(** X7: when every check uses the limit [N], no identifier ever has more
    than [N] timestamps recorded (none at all when [N] is not positive),
    however many checks were made. *)
Theorem rate_history_bounded N W (calls : list (Z * string)) id :
  Z.of_nat (length (RateLimiter.history
                      (RateLimiter.run_checks N W ∅ calls) id))
  ≤ Z.max N 0.
Proof.
  assert (RateLimiter.bounded N (RateLimiter.run_checks N W ∅ calls)) as Hb.
  { apply bounded_run_checks. intros ? ?. by rewrite lookup_empty. }
  unfold RateLimiter.history.
  destruct (RateLimiter.run_checks N W ∅ calls !! id) as [h|] eqn:Hh.
  - pose proof (Hb id h Hh). simpl. lia.
  - simpl. lia.
Qed.

(** X8: the checks of other identifiers do not count: the history of an
    identifier, and the answer to its next check, are what they would be
    had only its own checks been made. *)
Theorem rate_identifier_isolated N W (calls : list (Z * string)) id now :
  let own := filter (fun call => snd call = id) calls in
  RateLimiter.history (RateLimiter.run_checks N W ∅ calls) id
  = RateLimiter.history (RateLimiter.run_checks N W ∅ own) id
  ∧ fst (RateLimiter.checkLimit (RateLimiter.run_checks N W ∅ calls)
           now id N W)
    = fst (RateLimiter.checkLimit (RateLimiter.run_checks N W ∅ own)
             now id N W).
Proof.
  intros own.
  pose proof (run_checks_own_calls N W id calls ∅ ∅ eq_refl) as Hh.
  split; [exact Hh|]. by apply checkLimit_same.
Qed.

Lemma decisions_answers N W trim forwarded realIp times : ∀ requests,
  RateLimitMiddleware.decisions (N, W) trim requests forwarded realIp times
  = map (fun allowed : bool =>
           if allowed then RateLimitMiddleware.Next
           else RateLimitMiddleware.TooManyRequests 429
                  (pretty (RateLimitMiddleware.retryAfter W)))
      (RateLimiter.answers N W requests
         (RateLimitMiddleware.identifier trim forwarded realIp) times).
Proof.
  induction times as [|now rest IH]; intros requests; [done|].
  cbn [RateLimitMiddleware.decisions RateLimiter.answers].
  unfold RateLimitMiddleware.rateLimitMiddleware.
  destruct (RateLimiter.checkLimit _ _ _ _ _) as [allowed st].
  destruct allowed; simpl; by rewrite IH.
Qed.

Lemma retryAfter_ceil W :
  W ≤ 1000 * RateLimitMiddleware.retryAfter W < W + 1000.
Proof.
  unfold RateLimitMiddleware.retryAfter.
  pose proof (Z.div_mod (- W) 1000 ltac:(lia)).
  pose proof (Z.mod_pos_bound (- W) 1000 ltac:(lia)). lia.
Qed.

(** X9: a client that sends [N] requests and one more, all within one
    window and with the same headers, is passed on to the route [N] times
    and then answered 429 with a [Retry-After] of [windowMs / 1000] seconds
    rounded up. *)
Theorem middleware_limits_client N W trim forwarded realIp requests
    (times : list Z) t :
  requests !! RateLimitMiddleware.identifier trim forwarded realIp = None →
  Z.of_nat (length times) = N →
  (∀ a b, a ∈ times ++ [t] → b ∈ times ++ [t] → a - b < W) →
  RateLimitMiddleware.decisions (N, W) trim requests forwarded realIp
    (times ++ [t])
  = replicate (length times) RateLimitMiddleware.Next
    ++ [RateLimitMiddleware.TooManyRequests 429
          (pretty (RateLimitMiddleware.retryAfter W))]
  ∧ W ≤ 1000 * RateLimitMiddleware.retryAfter W < W + 1000.
Proof.
  intros Hnone Hlen Hwin. split; [|apply retryAfter_ceil].
  rewrite decisions_answers, answers_within_window.
  - rewrite map_app. f_equal.
    clear. induction (length times) as [|n IHn]; simpl; [done|].
    by rewrite IHn.
  - unfold RateLimiter.history. rewrite Hnone. simpl. lia.
  - unfold RateLimiter.history. rewrite Hnone. simpl. exact Hwin.
Qed.

Lemma first_segment_comma_free a rest :
  RateLimitMiddleware.comma_free a →
  RateLimitMiddleware.first_segment a = a
  ∧ RateLimitMiddleware.first_segment (a +:+ "," +:+ rest) = a.
Proof.
  unfold RateLimitMiddleware.comma_free.
  induction a as [|c a IH]; simpl; intros Hall; [done|].
  apply Forall_cons in Hall as [Hc Hall].
  destruct (IH Hall) as [IH1 IH2].
  destruct (Ascii.eqb_spec c (Ascii.ascii_of_nat 44)); [done|].
  split; f_equal; done.
Qed.

(** X10: the identifier is taken from [x-forwarded-for] alone whenever that
    header is present, [x-real-ip] being ignored: it is the trimmed text
    before the first comma, so requests with the same first hop share one
    identifier whatever follows it; [x-real-ip] is used only without
    [x-forwarded-for], and ["unknown"] without both. *)
Theorem middleware_identifier_first_hop trim a rest ip ip' (real : string) :
  RateLimitMiddleware.comma_free a →
  RateLimitMiddleware.identifier trim (Some (a +:+ "," +:+ rest)) ip
  = trim a
  ∧ RateLimitMiddleware.identifier trim (Some a) ip' = trim a
  ∧ RateLimitMiddleware.identifier trim None (Some real) = real
  ∧ RateLimitMiddleware.identifier trim None None = "unknown".
Proof.
  intros Ha. destruct (first_segment_comma_free a rest Ha) as [H1 H2].
  unfold RateLimitMiddleware.identifier. by rewrite H1, H2.
Qed.

(** X11: a limit that is not positive shuts every client out: each request
    is answered 429 and the map of the limiter stays as it was.  The
    environment gives such a limit when [RATE_LIMIT_MAX_REQUESTS] is
    negative; zero and an unset variable give the default 10. *)
Theorem middleware_nonpositive_limit N W trim requests now forwarded realIp :
  N ≤ 0 →
  RateLimitMiddleware.rateLimitMiddleware (N, W) trim requests now
    forwarded realIp
  = (RateLimitMiddleware.TooManyRequests 429
       (pretty (RateLimitMiddleware.retryAfter W)), requests)
  ∧ (∀ n, n < 0 → RateLimitMiddleware.defaultMaxRequests (Some n) = n)
  ∧ RateLimitMiddleware.defaultMaxRequests (Some 0) = 10
  ∧ RateLimitMiddleware.defaultMaxRequests None = 10.
Proof.
  intros HN. split; [|split; [|done]].
  - unfold RateLimitMiddleware.rateLimitMiddleware, RateLimiter.checkLimit.
    rewrite Z.geb_leb.
    destruct (Z.leb_spec N (Z.of_nat (length
      (filter (fun t => now - t < W)
         (default [] (requests !!
            RateLimitMiddleware.identifier trim forwarded realIp))))));
      [done | lia].
  - intros n Hn. unfold RateLimitMiddleware.defaultMaxRequests,
      CachedCrawlService.env_number.
    destruct (Z.eqb_spec n 0); [lia | done].
Qed.

End rate_limiter_more.

(** The default configuration scaled down: two requests, then a third. *)
Lemma middleware_limits_client_witness :
  RateLimitMiddleware.decisions (2, 60000) (fun s => s) ∅
    (Some "10.0.0.1,10.0.0.2") None [0; 400; 900]
  = [RateLimitMiddleware.Next; RateLimitMiddleware.Next;
     RateLimitMiddleware.TooManyRequests 429 "60"].
Proof.
  refine (proj1 (middleware_limits_client 2 60000 (fun s => s)
            (Some "10.0.0.1,10.0.0.2") None ∅ [0; 400] 900 _ _ _)).
  - reflexivity.
  - reflexivity.
  - intros a b Ha Hb.
    assert (0 ≤ a ≤ 900 ∧ 0 ≤ b ≤ 900) as [? ?]; [|lia].
    simpl in Ha, Hb. rewrite !elem_of_cons in Ha, Hb.
    split.
    + destruct Ha as [->|[->|[->|Ha]]]; [lia..|by apply elem_of_nil in Ha].
    + destruct Hb as [->|[->|[->|Hb]]]; [lia..|by apply elem_of_nil in Hb].
Defined.

(** A forwarded chain of two hops. *)
Lemma middleware_identifier_first_hop_witness :
  RateLimitMiddleware.identifier (fun s => s)
    (Some "10.0.0.1,10.0.0.2") (Some "192.168.0.1")
  = "10.0.0.1".
Proof.
  refine (proj1 (middleware_identifier_first_hop (fun s => s) "10.0.0.1"
            "10.0.0.2" (Some "192.168.0.1") None "192.168.0.1" _)).
  unfold RateLimitMiddleware.comma_free. simpl.
  repeat constructor; discriminate.
Defined.

(** The limit -1. *)
Lemma middleware_nonpositive_limit_witness :
  RateLimitMiddleware.rateLimitMiddleware
    (RateLimitMiddleware.getRateLimitConfig (Some (-1)) None) (fun s => s)
    ∅ 0 (Some "10.0.0.1") None
  = (RateLimitMiddleware.TooManyRequests 429 "60", ∅).
Proof.
  refine (proj1 (middleware_nonpositive_limit (-1) 60000 (fun s => s) ∅ 0
            (Some "10.0.0.1") None _)).
  lia.
Defined.

(** ** [Workflow.run] *)

Section workflow_more.
Import Types Async WorkflowTypes.

Lemma pPipe_nonempty {A} (f : A → Promise A) fs (a : A) :
  pPipe (f :: fs) a = fold_left bind (f :: fs) (resolve a).
Proof. reflexivity. Qed.





(** X14: a workflow without tasks cannot run: with or without a deadline
    the run rejects at once with the [Error] of [p-pipe], and
    [CrawlService] returns it as a failure. *)
Theorem workflow_without_tasks (initial : CrawlContext) (url : string)
    (ms : Z) :
  0 < ms →
  Workflow.run {| Workflow.tasks := [] |} initial None
    = Settles 0 (Rejected (ErrorObj "Error" "Expected at least one argument"))
  ∧ Workflow.run {| Workflow.tasks := [] |} initial
      (Some {| timeoutMs := Some ms |})
    = Settles 0 (Rejected (ErrorObj "Error" "Expected at least one argument"))
  ∧ CrawlService.crawlUrl
      {| CrawlService.workflow := {| Workflow.tasks := [] |};
         CrawlService.timeoutMs := ms |} url
    = Settles 0
        (Fulfilled
           (Failure
              (unknown "Expected at least one argument"
                 (Some (ErrorObj "Error"
                          "Expected at least one argument"))))).
Proof.
  intros Hms.
  assert (Workflow.run {| Workflow.tasks := [] |} (Initial {| i_url := url |})
            (Some {| timeoutMs := Some ms |})
          = Settles 0
              (Rejected (ErrorObj "Error" "Expected at least one argument")))
    as Hrun.
  { reflexivity. }
  split; [done|]. split.
  - reflexivity.
  - unfold CrawlService.crawlUrl.
    cbn [CrawlService.workflow CrawlService.timeoutMs]. by rewrite Hrun.
Qed.

End workflow_more.



Lemma workflow_without_tasks_witness :
  Workflow.run {| Workflow.tasks := [] |}
    (Types.Initial {| Types.i_url := "https://example.com" |})
    (Some {| WorkflowTypes.timeoutMs := Some 30000 |})
  = Async.Settles 0
      (Async.Rejected
         (Types.ErrorObj "Error" "Expected at least one argument")).
Proof.
  refine (proj1 (proj2 (workflow_without_tasks _ "https://example.com"
            30000 _))).
  lia.
Defined.

(** ** [fetchHtmlTask] *)

Section fetch_more.
Import Types Async WorkflowTypes Tasks.

Lemma pRetry_calls {A} retryable backoff (input : nat → Promise A) retries :
  ∀ attempt,
  (attempt < snd (pRetry retryable backoff input attempt retries)
   ≤ S (attempt + retries))%nat.
Proof.
  induction retries as [|r IH]; intros attempt; simpl.
  - destruct (input attempt) as [t [a|e]|]; simpl; [lia| |lia].
    destruct (retryable e); simpl; lia.
  - destruct (input attempt) as [t [a|e]|]; simpl; [lia| |lia].
    destruct (retryable e); simpl; [|lia].
    specialize (IH (S attempt)).
    destruct (pRetry retryable backoff input (S attempt) r) as [p n].
    simpl in *. lia.
Qed.

(** X15: a run of the fetch stage calls [fetch] at least once and at most
    three times (the first attempt and [RETRIES] more), whatever the
    network does. *)
Theorem fetch_calls_bounded (w : World) (ctx : InitialContext) :
  (1 ≤ snd (fetchHtmlTask w ctx) ≤ 3)%nat.
Proof.
  unfold fetchHtmlTask.
  pose proof (pRetry_calls (retryable w) (backoff w) (net w (i_url ctx))
                RETRIES 0%nat) as H.
  destruct (pRetry _ _ _ _ _) as [p n]. simpl in *. unfold RETRIES in H. lia.
Qed.

(** X16: when the failure persists, the three calls all failing with the
    same error, which is one that is retried, the stage rejects with that
    error after exactly three calls: the three latencies and the two
    back-off delays have passed. *)
Theorem fetch_retries_exhausted (w : World) (url : string)
    (t0 t1 t2 : Z) (e : JsThrown) :
  retryable w e = true →
  net w url 0%nat = Settles t0 (Rejected e) →
  net w url 1%nat = Settles t1 (Rejected e) →
  net w url 2%nat = Settles t2 (Rejected e) →
  fetchHtmlTask w {| i_url := url |}
  = (Settles (t0 + backoff w 0 + (t1 + backoff w 1 + t2)) (Rejected e),
     3%nat).
Proof.
  intros Hr H0 H1 H2. unfold fetchHtmlTask, RETRIES. cbn [i_url pRetry].
  by rewrite H0, Hr, H1, Hr, H2, Hr.
Qed.

(** X17: a first failure that [p-retry] does not retry ends the stage at
    once, after a single call, with that error. *)
Theorem fetch_not_retryable (w : World) (url : string) (t : Z)
    (e : JsThrown) :
  net w url 0%nat = Settles t (Rejected e) → retryable w e = false →
  fetchHtmlTask w {| i_url := url |} = (Settles t (Rejected e), 1%nat).
Proof.
  intros H0 Hr0. unfold fetchHtmlTask, RETRIES. cbn [i_url pRetry].
  by rewrite H0, Hr0.
Qed.

(** X18: when a call of [fetch] is answered with a status in the range
    200-299, the calls before it having failed with errors that are
    retried, no further call is made.  If the body is read, the stage
    fulfils with the fetched context of the same [url], whose [html] is the
    body and whose [title] is the trimmed capture of the title pattern; if
    reading the body fails, the stage rejects with that error. *)
Theorem fetch_ok_response (w : World) (url : string) (i : nat) (t : Z)
    (response : Response) :
  (i ≤ RETRIES)%nat →
  (∀ j, (j < i)%nat →
        ∃ tj e, net w url j = Settles tj (Rejected e)
                ∧ retryable w e = true) →
  net w url i = Settles t (Fulfilled response) →
  ok response = true →
  ∃ T,
    (∀ tb html, text response = Settles tb (Fulfilled html) →
       fetchHtmlTask w {| i_url := url |}
       = (Settles (T + tb)
            (Fulfilled {| f_url := url; f_html := html;
                          f_title := trim w <$> title_capture w html |}),
          S i))
    ∧ (∀ tb e, text response = Settles tb (Rejected e) →
         fetchHtmlTask w {| i_url := url |}
         = (Settles (T + tb) (Rejected e), S i)).
Proof.
  intros Hi Hrej Hresp Hok.
  destruct (pRetry_first_response (retryable w) (backoff w) (net w url)
              i 0%nat RETRIES t response Hi) as [T HT].
  { intros j Hj. apply Hrej. lia. }
  { exact Hresp. }
  exists T. split.
  - intros tb html Htext. unfold fetchHtmlTask. cbn [i_url]. rewrite HT.
    cbn [bind]. rewrite Hok, Htext. cbn [negb bind resolve delay].
    rewrite Z.add_0_r. by destruct (title_capture w html).
  - intros tb e Htext. unfold fetchHtmlTask. cbn [i_url]. rewrite HT.
    cbn [bind]. rewrite Hok, Htext. reflexivity.
Qed.

End fetch_more.

(** Three refused connections. *)
Lemma fetch_retries_exhausted_witness :
  Tasks.fetchHtmlTask (Demo.refusing true)
    {| Types.i_url := "https://down.example" |}
  = (Async.Settles 3030
       (Async.Rejected (Types.ErrorObj "TypeError" "fetch failed")),
     3%nat).
Proof.
  exact (fetch_retries_exhausted (Demo.refusing true) "https://down.example"
           10 10 10 (Types.ErrorObj "TypeError" "fetch failed")
           eq_refl eq_refl eq_refl eq_refl).
Defined.

(** A failure that is not retried. *)
Lemma fetch_not_retryable_witness :
  Tasks.fetchHtmlTask (Demo.refusing false)
    {| Types.i_url := "https://down.example" |}
  = (Async.Settles 10
       (Async.Rejected (Types.ErrorObj "TypeError" "fetch failed")),
     1%nat).
Proof.
  exact (fetch_not_retryable (Demo.refusing false) "https://down.example" 10
           (Types.ErrorObj "TypeError" "fetch failed") eq_refl eq_refl).
Defined.

(** The sample page, answered at the first call. *)
Lemma fetch_ok_response_witness :
  ∃ T,
    Tasks.fetchHtmlTask Demo.world {| Types.i_url := "https://example.com" |}
    = (Async.Settles (T + 0)
         (Async.Fulfilled
            {| Types.f_url := "https://example.com";
               Types.f_html := Demo.page;
               Types.f_title := Some "T" |}),
       1%nat).
Proof.
  destruct (fetch_ok_response Demo.world "https://example.com" 0 120
              {| Tasks.status := 200; Tasks.statusText := "OK";
                 Tasks.text := Async.resolve Demo.page |}) as [T [H _]].
  - unfold Tasks.RETRIES. lia.
  - intros j Hj. lia.
  - reflexivity.
  - reflexivity.
  - exists T. apply (H 0 Demo.page). reflexivity.
Defined.

(** ** [extractMetadataTask] *)

Section metadata_more.
Import Types Async WorkflowTypes Tasks.
Implicit Types (m : Metadata).

(** The metadata object that [extractMetadataTask] builds. *)
Lemma extractMetadataTask_result w ctx :
  ∃ out, extractMetadataTask w ctx = Settles 0 (Fulfilled out)
         ∧ m_url out = f_url ctx ∧ m_html out = f_html ctx
         ∧ m_title out = f_title ctx
         ∧ m_metadata out
           = metadata_favicon w (f_html ctx)
               (metadata_alias "og:url" "ogUrl"
                  (metadata_alias "og:image" "ogImage"
                     (metadata_alias "og:description" "ogDescription"
                        (metadata_alias "og:title" "ogTitle"
                           (fold_left metadata_meta (head_metas w (f_html ctx))
                              (metadata_title w ctx)))))).
Proof. eexists. repeat split. Qed.

Lemma alias_lookup_ne from to m k :
  k ≠ to → metadata_alias from to m !! k = m !! k.
Proof.
  intros Hk. unfold metadata_alias.
  destruct (m !! from) as [[v|]|]; [|done..].
  destruct (truthy v); [|done]. by rewrite lookup_insert_ne.
Qed.

Lemma alias_lookup_to from to m v :
  m !! from = Some (Some v) → truthy v = true →
  metadata_alias from to m !! to = Some (Some v).
Proof.
  intros Hf Hv. unfold metadata_alias. rewrite Hf, Hv.
  apply lookup_insert_eq.
Qed.

Lemma favicon_lookup_ne w html m k :
  k ≠ "favicon" → metadata_favicon w html m !! k = m !! k.
Proof.
  intros Hk. unfold metadata_favicon.
  destruct (match link_href w "icon" html with
            | Some h => Some h
            | None => link_href w "shortcut icon" html
            end) as [h|]; [|done].
  destruct (truthy h); [|done]. by rewrite lookup_insert_ne.
Qed.

(** Rewriting a lookup through the alias and favicon steps, at a key none
    of them writes. *)
Ltac skip_steps :=
  repeat first
    [ rewrite favicon_lookup_ne by done
    | rewrite alias_lookup_ne by done ].

(** X19: in the metadata that the stage produces, each Open Graph key that
    holds a non-empty value has its alias with the same value: [og:title]
    and [ogTitle], [og:description] and [ogDescription], [og:image] and
    [ogImage], [og:url] and [ogUrl]. *)
Theorem metadata_open_graph_aliases (w : World) (ctx : FetchedContext)
    (from to v : string) :
  (from, to) ∈ [("og:title", "ogTitle");
                ("og:description", "ogDescription");
                ("og:image", "ogImage"); ("og:url", "ogUrl")] →
  truthy v = true →
  ∃ out, extractMetadataTask w ctx = Settles 0 (Fulfilled out)
         ∧ (m_metadata out !! from = Some (Some v) →
            m_metadata out !! to = Some (Some v)).
Proof.
  intros Hin Hv.
  destruct (extractMetadataTask_result w ctx) as (out & Hout & _ & _ & _ & Hm).
  exists out. split; [exact Hout|]. rewrite Hm. clear Hm Hout.
  rewrite !elem_of_cons in Hin.
  destruct Hin as [[= -> ->]|[[= -> ->]|[[= -> ->]|[[= -> ->]|Hin]]]];
    [..|by apply elem_of_nil in Hin]; skip_steps; intros Hfrom.
  - by apply alias_lookup_to.
  - apply alias_lookup_to; [|done]. by skip_steps.
  - apply alias_lookup_to; [|done]. by skip_steps.
  - apply alias_lookup_to; [|done]. by skip_steps.
Qed.

Lemma meta_step_keys m el k :
  is_Some (metadata_meta m el !! k) →
  is_Some (m !! k)
  ∨ (is_Some (meta_content el)
     ∧ (meta_name el = Some k ∨ meta_property el = Some k)).
Proof.
  unfold metadata_meta.
  destruct (meta_content el) as [content|]; [|by left].
  intros Hk.
  destruct (meta_property el) as [p|] eqn:Hp;
    [destruct (truthy p);
     [destruct (decide (k = p)) as [->|Hne];
      [right; eauto | rewrite lookup_insert_ne in Hk by done]|]|];
    (destruct (meta_name el) as [n|] eqn:Hn;
     [destruct (truthy n);
      [destruct (decide (k = n)) as [->|Hne'];
       [right; eauto | rewrite lookup_insert_ne in Hk by done]|]|]);
    by left.
Qed.

Lemma meta_fold_keys (l : list MetaTag) : ∀ m k,
  is_Some (fold_left metadata_meta l m !! k) →
  is_Some (m !! k)
  ∨ ∃ el, el ∈ l ∧ is_Some (meta_content el)
          ∧ (meta_name el = Some k ∨ meta_property el = Some k).
Proof.
  induction l as [|el l IH]; intros m k Hk; [by left|].
  simpl in Hk. destruct (IH _ _ Hk) as [Hm|(el' & Hin & Hc & Hn)].
  - destruct (meta_step_keys m el k Hm) as [?|[Hc Hn]]; [by left|].
    right. exists el. split; [left | done].
  - right. exists el'. split; [by right | done].
Qed.

(** X20: the stage invents no key: every key of the metadata it produces is
    [title], [favicon], one of the four aliases, or the [name] or the
    [property] of a [meta] element of the head that has a [content]
    attribute. *)
Theorem metadata_keys_come_from_page (w : World) (ctx : FetchedContext) :
  ∃ out, extractMetadataTask w ctx = Settles 0 (Fulfilled out)
         ∧ ∀ k, is_Some (m_metadata out !! k) →
             k ∈ ["title"; "favicon"; "ogTitle"; "ogDescription";
                  "ogImage"; "ogUrl"]
             ∨ ∃ el, el ∈ head_metas w (f_html ctx)
                     ∧ is_Some (meta_content el)
                     ∧ (meta_name el = Some k ∨ meta_property el = Some k).
Proof.
  destruct (extractMetadataTask_result w ctx) as (out & Hout & _ & _ & _ & Hm).
  exists out. split; [exact Hout|]. rewrite Hm. clear Hm Hout.
  intros k Hk.
  destruct (decide (k ∈ ["title"; "favicon"; "ogTitle"; "ogDescription";
                         "ogImage"; "ogUrl"])) as [Hin|Hnin]; [by left|].
  right. rewrite !not_elem_of_cons in Hnin.
  destruct Hnin as (? & ? & ? & ? & ? & ? & _).
  revert Hk. skip_steps. intros Hk.
  destruct (meta_fold_keys _ _ _ Hk) as [Ht|Hel]; [|done].
  exfalso. revert Ht. unfold metadata_title.
  destruct (head_title w (f_html ctx)) as [text|].
  - rewrite lookup_insert_ne by done. rewrite lookup_empty.
    intros [? ?]; done.
  - destruct (f_title ctx) as [t|]; [destruct (truthy t)|];
      rewrite ?lookup_insert_ne by done; rewrite lookup_empty;
      intros [? ?]; done.
Qed.

End metadata_more.

(** The Open Graph title of a page with one [meta] element. *)
Lemma metadata_open_graph_aliases_witness :
  ∃ out,
    Tasks.extractMetadataTask
      {| Tasks.net := fun _ _ => Async.Pending;
         Tasks.retryable := fun _ => true;
         Tasks.backoff := fun _ => 1000;
         Tasks.title_capture := fun _ => None;
         Tasks.trim := fun s => s;
         Tasks.head_title := fun _ => None;
         Tasks.head_metas := fun _ =>
           [ {| Tasks.meta_name := None;
                Tasks.meta_property := Some "og:title";
                Tasks.meta_content := Some "Hello" |} ];
         Tasks.link_href := fun _ _ => None;
         Tasks.select_html := fun _ _ => None;
         Tasks.serialize := fun s => s;
         Tasks.strip_presentation := fun s => s;
         Tasks.turndown := fun s => s |}
      {| Types.f_url := "https://example.com"; Types.f_html := Demo.page;
         Types.f_title := None |}
    = Async.Settles 0 (Async.Fulfilled out)
    ∧ Types.m_metadata out !! "ogTitle" = Some (Some "Hello").
Proof.
  destruct (metadata_open_graph_aliases
    {| Tasks.net := fun _ _ => Async.Pending;
       Tasks.retryable := fun _ => true;
       Tasks.backoff := fun _ => 1000;
       Tasks.title_capture := fun _ => None;
       Tasks.trim := fun s => s;
       Tasks.head_title := fun _ => None;
       Tasks.head_metas := fun _ =>
         [ {| Tasks.meta_name := None;
              Tasks.meta_property := Some "og:title";
              Tasks.meta_content := Some "Hello" |} ];
       Tasks.link_href := fun _ _ => None;
       Tasks.select_html := fun _ _ => None;
       Tasks.serialize := fun s => s;
       Tasks.strip_presentation := fun s => s;
       Tasks.turndown := fun s => s |}
    {| Types.f_url := "https://example.com"; Types.f_html := Demo.page;
       Types.f_title := None |}
    "og:title" "ogTitle" "Hello") as (out & Hout & Halias).
  - left.
  - reflexivity.
  - exists out. split; [exact Hout|]. apply Halias.
    injection Hout as <-. vm_compute. reflexivity.
Defined.

(** ** The crawl workflow and [CrawlService] *)

Section crawl_more.
Import Types Async WorkflowTypes Tasks.

(** The chain of the five tasks, by what the fetch stage settles with. *)
Lemma crawl_pipeline w url p chain :
  fst (fetchHtmlTask w {| i_url := url |}) = p →
  pPipe (map run (Workflow.tasks (createCrawlWorkflow w)))
    (Initial {| i_url := url |}) = chain →
  match p with
  | Settles T (Fulfilled f) =>
      ∃ c, chain = Settles T (Fulfilled (Completed c))
           ∧ d_url c = f_url f ∧ d_html c = f_html f
           ∧ d_title c = f_title f
           ∧ d_cleanedDocument c = strip_presentation w (d_document c)
           ∧ d_markdown c = turndown w (d_cleanedDocument c)
  | Settles T (Rejected e) => chain = Settles T (Rejected e)
  | Pending => chain = Pending
  end.
Proof.
  intros Hp <-. unfold createCrawlWorkflow, pPipe.
  cbn [Workflow.tasks map fold_left run fetchHtml]. rewrite bind_resolve.
  rewrite Hp. destruct p as [T [f|e]|]; cbn [bind resolve delay].
  - eexists. split.
    + cbn [run extractMetadata parseDocument cleanDocument convertToMarkdown
           extractMetadataTask parseDocumentTask cleanDocumentTask
           convertToMarkdownTask bind resolve delay].
      rewrite !Z.add_0_r. reflexivity.
    + repeat split.
  - reflexivity.
  - reflexivity.
Qed.

(** X21: a run of the crawl workflow that fulfils ends in a completed
    context, with or without deadline: when the fetch stage fulfils at time
    [T] the run without deadline fulfils at [T] with the [url], [html] and
    [title] of the fetched context, the cleaned document being the
    stripped document and the markdown its conversion; so every failure
    that [CrawlService] returns for this workflow carries a caught error as
    its cause, never the [Workflow incomplete] answer. *)
Theorem crawl_workflow_completes (w : World) (url : string) :
  (∀ T f n, fetchHtmlTask w {| i_url := url |}
            = (Settles T (Fulfilled f), n) →
     ∃ c, Workflow.run (createCrawlWorkflow w) (Initial {| i_url := url |})
            None
          = Settles T (Fulfilled (Completed c))
          ∧ d_url c = url ∧ d_html c = f_html f ∧ d_title c = f_title f
          ∧ d_cleanedDocument c = strip_presentation w (d_document c)
          ∧ d_markdown c = turndown w (d_cleanedDocument c))
  ∧ (∀ options t ctx,
       Workflow.run (createCrawlWorkflow w) (Initial {| i_url := url |})
         options
       = Settles t (Fulfilled ctx) →
       ∃ c, ctx = Completed c)
  ∧ (∀ t m cause,
       CrawlService.crawlUrl (Index.crawlService w) url
       = Settles t (Fulfilled (Failure (unknown m cause))) →
       ∃ err, cause = Some err ∧ m = CrawlService.caught_message err).
Proof.
  set (chain := pPipe (map run (Workflow.tasks (createCrawlWorkflow w)))
                  (Initial {| i_url := url |})).
  pose proof (crawl_pipeline w url _ chain eq_refl eq_refl) as Hchain.
  assert (∀ options,
            Workflow.run (createCrawlWorkflow w) (Initial {| i_url := url |})
              options
            = match options with
              | Some {| timeoutMs := Some ms |} => pTimeout chain ms
              | _ => chain
              end) as Hrun by reflexivity.
  clearbody chain.
  assert (∀ options t ctx,
       Workflow.run (createCrawlWorkflow w) (Initial {| i_url := url |})
         options
       = Settles t (Fulfilled ctx) →
       ∃ c, ctx = Completed c) as Hcompleted.
  { intros options t ctx. rewrite Hrun.
    destruct (fst (fetchHtmlTask w {| i_url := url |})) as [T [f|e]|].
    - destruct Hchain as (c & -> & _).
      destruct options as [[[ms|]]|]; [|by intros [= _ <-]; eauto..].
      unfold pTimeout. destruct (ms <=? 0); [done|].
      destruct (T <? ms); [by intros [= _ <-]; eauto | done].
    - rewrite Hchain.
      destruct options as [[[ms|]]|]; [|done..].
      unfold pTimeout. destruct (ms <=? 0); [done|].
      by destruct (T <? ms).
    - rewrite Hchain.
      destruct options as [[[ms|]]|]; [|done..].
      unfold pTimeout. by destruct (ms <=? 0). }
  split; [|split; [exact Hcompleted|]].
  - intros T f n Hf. rewrite Hf in Hchain. cbn [fst] in Hchain.
    destruct Hchain as (c & Hc & Hu & Hh & Ht & Hcd & Hmd).
    exists c. rewrite Hrun, Hc.
    assert (f_url f = url) as Hfu.
    { apply (fetchHtmlTask_fulfilled w {| i_url := url |} T f).
      by rewrite Hf. }
    repeat split; try done. by rewrite Hu.
  - intros t m cause. unfold CrawlService.crawlUrl.
    cbn [Index.crawlService CrawlService.workflow CrawlService.timeoutMs].
    destruct (Workflow.run _ _ _) as [t' [ctx|err]|] eqn:Hr; [| |done].
    + destruct (Hcompleted _ _ _ Hr) as [c ->]. done.
    + intros [= _ <- <-]. eauto.
Qed.

(** X22: [CrawlService.crawlUrl] never throws and never hangs: whatever
    the workflow and the deadline, it returns a result, and no later than
    the deadline. *)
Theorem crawl_service_always_answers (svc : CrawlService.CrawlService)
    (url : string) :
  ∃ t result,
    CrawlService.crawlUrl svc url = Settles t (Fulfilled result)
    ∧ t ≤ Z.max (CrawlService.timeoutMs svc) 0.
Proof.
  unfold CrawlService.crawlUrl, Workflow.run.
  destruct (map run (Workflow.tasks (CrawlService.workflow svc)))
    as [|f fs].
  { do 2 eexists. split; [reflexivity | lia]. }
  unfold pTimeout.
  destruct (Z.leb_spec (CrawlService.timeoutMs svc) 0).
  - do 2 eexists. split; [reflexivity | lia].
  - destruct (pPipe _ _) as [t [ctx|err]|].
    + destruct (Z.ltb_spec t (CrawlService.timeoutMs svc));
        do 2 eexists; (split; [reflexivity | lia]).
    + destruct (Z.ltb_spec t (CrawlService.timeoutMs svc));
        do 2 eexists; (split; [reflexivity | lia]).
    + do 2 eexists. split; [reflexivity | lia].
Qed.

End crawl_more.

(** ** [CachedCrawlService] *)

Section cached_more.
Import Types Async.
Implicit Types (cache : Cache.CacheService CrawlResultData).

(** A call for a URL whose entry is stored and has not expired is
    answered from the cache, which it leaves as it was. *)
Lemma cached_hit inner cache now url e :
  Cache.cache cache !! url = Some e →
  now ≤ Cache.expiresAt e →
  CachedCrawlService.crawlUrl inner cache now url
  = (resolve (Success (Cache.value e)), cache).
Proof.
  intros He Hnow. unfold CachedCrawlService.crawlUrl, Cache.get.
  rewrite He, Z.gtb_ltb.
  destruct (Z.ltb_spec (Cache.expiresAt e) now); [lia|done].
Qed.

(** X23: after a miss followed by a successful crawl that took [t]
    milliseconds, the data is stored for the URL, to expire [ttlMs] after
    the crawl ended.  On any cache in which that entry is still stored, a
    call for the URL made up to that time is answered at once with the
    stored data, without consulting the crawl service and without changing
    the cache; so are all the calls of a run of calls for that URL made up
    to that time, nothing else touching the cache in between.  A call made
    after that time consults the crawl service again. *)
Theorem cached_result_served_until_expiry
    (inner inner' : string → Promise CrawlResult) cache
    (now t : Z) (url : string) (data : CrawlResultData) :
  fst (Cache.get cache now url) = None →
  inner url = Settles t (Fulfilled (Success data)) →
  let cache1 := snd (CachedCrawlService.crawlUrl inner cache now url) in
  let expiry := now + t + Cache.ttlMs cache in
  let stored := {| Cache.value := data; Cache.expiresAt := expiry |} in
  Cache.cache cache1 !! url = Some stored
  ∧ (∀ cache2 now2,
       Cache.cache cache2 !! url = Some stored → now2 ≤ expiry →
       CachedCrawlService.crawlUrl inner' cache2 now2 url
       = (resolve (Success data), cache2))
  ∧ (∀ nows,
       Forall (λ now2, now2 ≤ expiry) nows →
       CachedCrawlService.crawl_calls inner' cache1 nows url
       = (map (λ _, resolve (Success data)) nows, cache1))
  ∧ (∀ cache2 now2,
       Cache.cache cache2 !! url = Some stored → expiry < now2 →
       fst (CachedCrawlService.crawlUrl inner' cache2 now2 url)
       = inner' url).
Proof.
  intros Hmiss Hin cache1 expiry stored.
  assert (Cache.cache cache1 !! url = Some stored) as He.
  { subst cache1 stored expiry. unfold CachedCrawlService.crawlUrl.
    pose proof (params_get cache now url) as [Httl _].
    destruct (Cache.get cache now url) as [cached c1].
    simpl in Hmiss, Httl. subst cached. rewrite Hin. cbn [snd].
    by rewrite set_lookup_key, Httl. }
  assert (∀ cache2 now2,
       Cache.cache cache2 !! url = Some stored → now2 ≤ expiry →
       CachedCrawlService.crawlUrl inner' cache2 now2 url
       = (resolve (Success data), cache2)) as Hhit.
  { intros cache2 now2 H2 Hnow2.
    by rewrite (cached_hit inner' cache2 now2 url stored). }
  split; [exact He|]. split; [exact Hhit|]. split.
  - induction 1 as [|now2 nows Hnow2 _ IH]; [done|].
    cbn [CachedCrawlService.crawl_calls map].
    by rewrite (Hhit cache1 now2 He Hnow2), IH.
  - intros cache2 now2 H2 Hlate.
    unfold CachedCrawlService.crawlUrl, Cache.get.
    rewrite H2. cbn [Cache.expiresAt stored]. rewrite Z.gtb_ltb.
    destruct (Z.ltb_spec expiry now2); [|lia].
    by destruct (inner' url) as [t' [[d|e]|e]|].
Qed.

End cached_more.

(** The sample page, crawled at clock 0 and asked for again 5 s later while
    the network is down. *)
Lemma cached_result_served_until_expiry_witness :
  fst (CachedCrawlService.crawlUrl (fun _ => Async.Pending)
         (snd (CachedCrawlService.crawlUrl
                 (CrawlService.crawlUrl (Index.crawlService Demo.world))
                 (Cache.new 300000 100) 0 "https://example.com"))
         5000 "https://example.com")
  = Async.resolve
      (Types.Success
         {| Types.markdown := "Hi"; Types.title := Some "T";
            Types.metadata := Some {["title" := Some "T"]} |}).
Proof.
  destruct (cached_result_served_until_expiry
    (CrawlService.crawlUrl (Index.crawlService Demo.world))
    (fun _ => Async.Pending) (Cache.new 300000 100) 0 120
    "https://example.com"
    {| Types.markdown := "Hi"; Types.title := Some "T";
       Types.metadata := Some {["title" := Some "T"]} |}
    eq_refl) as (Hstored & Hhit & _).
  - vm_compute. reflexivity.
  - rewrite (Hhit _ 5000 Hstored); [reflexivity | simpl; lia].
Defined.

(** The sample page through the crawl workflow. *)
Lemma crawl_workflow_completes_witness :
  ∃ c, Workflow.run (Tasks.createCrawlWorkflow Demo.world)
         (Types.Initial {| Types.i_url := "https://example.com" |}) None
       = Async.Settles 120 (Async.Fulfilled (Types.Completed c))
       ∧ Types.d_markdown c = "Hi".
Proof.
  destruct (proj1 (crawl_workflow_completes Demo.world "https://example.com")
              120 {| Types.f_url := "https://example.com";
                     Types.f_html := Demo.page;
                     Types.f_title := Some "T" |} 1%nat)
    as (c & Hc & _ & _ & _ & _ & Hm).
  - vm_compute. reflexivity.
  - exists c. split; [exact Hc|]. rewrite Hm. reflexivity.
Defined.

(** ** [errorHandler], [toCrawlError], the assertions and
    [removeUndefined] *)

Section errors_more.
Import Types Async.

(** Membership in a list that is written out. *)
Ltac in_list := rewrite ?elem_of_cons; auto 10.


(** X25: [toCrawlError] ignores its [stage] argument and yields only the
    variants [network_error] and [unknown]: [network_error] exactly for an
    [Error] whose message contains ["fetch"], with the message kept; so
    [errorHandler], given the converted error, answers 503 or 500 and
    never 422, 502 or 504. *)
Theorem to_crawl_error_variants (err : JsThrown) (cause : option string)
    (stage stage' : string) :
  let e := Runtime.toCrawlError err cause stage in
  Runtime.toCrawlError err cause stage' = e
  ∧ Errors.error_type e ∈ ["network_error"; "unknown"]
  ∧ (Errors.error_type e = "network_error" ↔
     Runtime.includes (CrawlService.caught_message err) "fetch" = true
     ∧ (∀ ce, err ≠ CrawlErrorObj ce) ∧ (∀ repr, err ≠ OtherThrown repr))
  ∧ ((∀ ce, err ≠ CrawlErrorObj ce) → (∀ repr, err ≠ OtherThrown repr) →
     Errors.getErrorMessage e = CrawlService.caught_message err)
  ∧ Errors.http_status (Errors.errorHandler (CrawlErrorObj e))
    = (if decide (Errors.error_type e = "network_error") then 503 else 500).
Proof.
  intros e. subst e. split; [reflexivity|].
  destruct err as [n m|sc m|m|ce|repr]; simpl.
  1-3: destruct (Runtime.includes m "fetch") eqn:Hinc; simpl;
       (split; [in_list|]);
       (split; [split; [done|by intros [? _]] |]);
       (split; [done|reflexivity]).
  - split; [in_list|]. split; [split; [done|]|split; [|reflexivity]].
    + intros (_ & H & _). exfalso. by apply (H ce).
    + intros H _. exfalso. by apply (H ce).
  - split; [in_list|]. split; [split; [done|]|split; [|reflexivity]].
    + intros (_ & _ & H). exfalso. by apply (H repr).
    + intros _ H. exfalso. by apply (H repr).
Qed.

(** X26: [assertHasHtml] passes exactly on a context that carries a
    non-empty [html] field, and [assertHasDocument] exactly on one that
    carries a non-empty [document] field: an empty string makes them throw
    like a missing key; what they throw is an [Error] that names the
    stage. *)
Theorem assertions_pass_on_nonempty_field (ctx : CrawlContext) :
  (Asserts.assertHasHtml ctx = None ↔
   ∃ h, fields ctx !! "html" = Some (FStr h) ∧ h ≠ EmptyString)
  ∧ (Asserts.assertHasDocument ctx = None ↔
     ∃ d, fields ctx !! "document" = Some (FStr d) ∧ d ≠ EmptyString)
  ∧ (∀ err, Asserts.assertHasHtml ctx = Some err →
       err = ErrorObj "Error"
               ("Expected html in context at stage " +:+ stage ctx))
  ∧ (∀ err, Asserts.assertHasDocument ctx = Some err →
       err = ErrorObj "Error"
               ("Expected document in context at stage " +:+ stage ctx)).
Proof.
  assert (∀ s, Tasks.truthy s = true ↔ s ≠ EmptyString) as Htruthy.
  { intros s. unfold Tasks.truthy. destruct s; simpl; split; done. }
  assert (∀ what v,
            Asserts.assert_key what v ctx = None ↔
            ∃ s, v = Some s ∧ s ≠ EmptyString) as Hkey.
  { intros what [s|]; simpl.
    - destruct (Tasks.truthy s) eqn:Hs.
      + split; [intros _; exists s; split; [done|by apply Htruthy]|done].
      + split; [done|]. intros (s' & [= <-] & Hne).
        apply Htruthy in Hne. congruence.
    - split; [done|]. intros (? & ? & _). done. }
  assert (html_field :
    ∀ h, fields ctx !! "html" = Some (FStr h) ↔ Asserts.html_of ctx = Some h).
  { intros h. destruct ctx as [c|c|c|c|c|c|c]; simpl;
      rewrite ?lookup_insert_ne by done;
      rewrite ?lookup_insert_eq;
      rewrite ?lookup_singleton_ne by done;
      split; intros H; try done; by injection H as ->. }
  assert (document_field :
    ∀ d, fields ctx !! "document" = Some (FStr d)
         ↔ Asserts.document_of ctx = Some d).
  { intros d. destruct ctx as [c|c|c|c|c|c|c]; simpl;
      rewrite ?lookup_insert_ne by done;
      rewrite ?lookup_insert_eq;
      rewrite ?with_title_lookup_ne by done;
      rewrite ?lookup_insert_ne by done;
      rewrite ?lookup_singleton_ne by done;
      split; intros H; try done; by injection H as ->. }
  unfold Asserts.assertHasHtml, Asserts.assertHasDocument.
  split; [|split; [|split]].
  - rewrite Hkey. split; intros (h & Hh & Hne); exists h;
      (split; [by apply html_field | done]).
  - rewrite Hkey. split; intros (d & Hd & Hne); exists d;
      (split; [by apply document_field | done]).
  - intros err. unfold Asserts.assert_key.
    destruct (Asserts.html_of ctx) as [h|]; [destruct (Tasks.truthy h)|];
      by intros [= <-].
  - intros err. unfold Asserts.assert_key.
    destruct (Asserts.document_of ctx) as [d|]; [destruct (Tasks.truthy d)|];
      by intros [= <-].
Qed.

(** X27: [removeUndefined] keeps exactly the entries whose value is
    defined, each with its value, and applying it twice is applying it
    once. *)
Theorem remove_undefined_keeps_defined (obj : Metadata) (k : string)
    (v : option string) :
  (Runtime.removeUndefined obj !! k = Some v ↔
   obj !! k = Some v ∧ is_Some v)
  ∧ Runtime.removeUndefined (Runtime.removeUndefined obj)
    = Runtime.removeUndefined obj.
Proof.
  unfold Runtime.removeUndefined. split.
  - rewrite map_lookup_filter_Some. simpl. done.
  - apply map_eq. intros i. apply option_eq. intros x.
    rewrite !map_lookup_filter_Some. simpl. tauto.
Qed.

End errors_more.


(** An [Error] of the network, and the [Error] of the fetch stage, whose
    message begins with a capital letter. *)
Lemma to_crawl_error_variants_witness :
  Runtime.toCrawlError (Types.ErrorObj "TypeError" "fetch failed") None
    "fetch_html"
  = Types.network_error "fetch failed" None
  ∧ Errors.getErrorMessage
      (Runtime.toCrawlError
         (Types.ErrorObj "Error" "Fetch failed: 404 Not Found") None
         "fetch_html")
    = "Fetch failed: 404 Not Found"
  ∧ Errors.error_type
      (Runtime.toCrawlError
         (Types.ErrorObj "Error" "Fetch failed: 404 Not Found") None
         "fetch_html")
    = "unknown".
Proof.
  split; [reflexivity|]. split; [|reflexivity].
  refine (proj1 (proj2 (proj2 (proj2 (to_crawl_error_variants
            (Types.ErrorObj "Error" "Fetch failed: 404 Not Found") None
            "fetch_html" "fetch_html")))) _ _);
    intros ?; discriminate.
Defined.

(** ** The middleware in front of the route *)

Section handle_more.
Import Types Async.

(** X28: a request that the middleware answers with 429 changes nothing in
    the process: the map of the limiter and the cache are as before, and
    the answer is the same whatever the body of the request and whatever
    the network would have done; a request that is passed on has its clock
    value recorded last in the history of its identifier. *)
Theorem limited_request_changes_nothing (config : Z * Z)
    (trim : string → string) (w w' : Tasks.World)
    (st : RateLimitMiddleware.AppState) (now : Z)
    (forwarded realIp : option string) (body body' : Index.RequestBody) :
  let r :=
    RateLimitMiddleware.handle config trim w st now forwarded realIp body in
  (∀ status h, fst r = RateLimitMiddleware.Limited status h →
     status = 429
     ∧ h = pretty (RateLimitMiddleware.retryAfter (snd config))
     ∧ snd r = st
     ∧ RateLimitMiddleware.handle config trim w' st now forwarded realIp
         body' = r)
  ∧ (∀ p, fst r = RateLimitMiddleware.Routed p →
     last (RateLimiter.history
             (RateLimitMiddleware.limiter (snd r))
             (RateLimitMiddleware.identifier trim forwarded realIp))
     = Some now).
Proof.
  intros r. subst r. destruct config as [N W]. destruct st as [lim cache].
  unfold RateLimitMiddleware.handle, RateLimitMiddleware.rateLimitMiddleware,
    RateLimiter.checkLimit.
  cbn [RateLimitMiddleware.limiter RateLimitMiddleware.crawl_cache snd].
  destruct (_ >=? _); cbn [negb fst snd].
  - split; [|done]. intros status h [= <- <-]. done.
  - split; [done|]. intros p _.
    cbn [RateLimitMiddleware.limiter]. unfold RateLimiter.history.
    rewrite lookup_insert_eq. simpl. apply last_snoc.
Qed.

End handle_more.

(** The third request of a client limited to two. *)
Lemma limited_request_changes_nothing_witness :
  RateLimitMiddleware.handle (2, 60000) (fun s => s) Demo.world
    {| RateLimitMiddleware.limiter := {["10.0.0.1" := [0; 400]]};
       RateLimitMiddleware.crawl_cache := Cache.new 300000 100 |}
    900 (Some "10.0.0.1") None (Index.Valid "https://example.com")
  = (RateLimitMiddleware.Limited 429 "60",
     {| RateLimitMiddleware.limiter := {["10.0.0.1" := [0; 400]]};
        RateLimitMiddleware.crawl_cache := Cache.new 300000 100 |}).
Proof.
  pose proof (limited_request_changes_nothing (2, 60000) (fun s => s)
    Demo.world Demo.world
    {| RateLimitMiddleware.limiter := {["10.0.0.1" := [0; 400]]};
       RateLimitMiddleware.crawl_cache := Cache.new 300000 100 |}
    900 (Some "10.0.0.1") None (Index.Valid "https://example.com")
    (Index.Valid "https://example.com")) as [H _].
  destruct (H 429 "60" eq_refl) as (_ & _ & Hst & _).
  apply injective_projections; [reflexivity | exact Hst].
Defined.
